(** * Meowcoin API: cache, subsidy, algorithm detection and block statistics

    A shallow embedding of the core of the Meowcoin API server
    ([rpc.js], [cache.js], [utils.js], [server.js]) and the properties
    its specification states about it, with further properties read off
    the code.

    Conventions of the embedding:
    - a JavaScript number that holds an integer is a [Z]; the 32-bit
      coercion of the bitwise operators is written out ([ToInt32]);
    - monetary values are binary64 floats ([PrimFloat.float]);
    - a JavaScript string is the list of its UTF-16 code units;
    - the cache object is a record with a [gmap] from key to stored value
      and the shared [updated] stamp; functions that touch it pass it
      explicitly;
    - [Date.now()] is an explicit clock reading. *)

From Stdlib Require Import ZArith Lia List Sorted Permutation QArith Qround Qpower Lqa.
From Stdlib Require Import PrimFloat FloatOps SpecFloat DecimalPos DecimalN.
From stdpp Require Import base option list gmap strings sorting.

Set Warnings "-inexact-float".

Local Open Scope Z_scope.

(** ** Algorithm detection ([detectAlgo]) *)

Module Algo.

(** [ToInt32] of ECMAScript, on integers: reduce modulo 2^32 into the
    signed range. Every operand of [&] and [|] goes through it and the
    result of the operator is again such a value. *)
Definition ToInt32 (x : Z) : Z := (x + 2^31) mod 2^32 - 2^31.

(** JavaScript [a & b] and [a | b] on integer-valued numbers. *)
Definition js_and (a b : Z) : Z := ToInt32 (Z.land (ToInt32 a) (ToInt32 b)).
Definition js_or (a b : Z) : Z := ToInt32 (Z.lor (ToInt32 a) (ToInt32 b)).

Definition MASK : Z := 0xFFFFFF00.
Definition MPW : Z := 0x30090000.
Definition SCR : Z := 0x30090100.

Definition detectAlgo (version : Z) : string :=
  if js_and version MASK =? MPW then "meowpow"
  else if js_and version MASK =? SCR then "scrypt"
  else "unknown".

End Algo.

(** ** Block subsidy ([getBlockSubsidy] and the [/block-reward] producer) *)

Module Subsidy.

Local Open Scope float_scope.

Definition INITIAL_SUBSIDY : float := 5000.
Definition HALVING_INTERVAL : Z := 2100000.

(** [Math.pow(2, k)] at an integer [k]: the power of two, which binary64
    holds exactly (overflowing to infinity and underflowing to zero
    outside its exponent range). *)
Definition Math_pow2 (k : Z) : float := Z.ldexp 1 k.

(** [height] is the integer block count reported by the node, so
    [Math.floor(height / HALVING_INTERVAL)] is the floored integer
    quotient: the binary64 quotient of two integers below 2^53 never
    rounds up to the next integer. *)
Definition getBlockSubsidy (height : Z) : float :=
  let halvings := (height / HALVING_INTERVAL)%Z in
  if (64 <=? halvings)%Z then 0
  else INITIAL_SUBSIDY / Math_pow2 halvings.

(** The value the [/block-reward] producer builds from [chain.blocks]. *)
Record BlockReward : Type := mkBlockReward {
  height : Z;
  subsidy_total : float;
  miner : float;
  foundation : float
}.

Definition block_reward (height : Z) : BlockReward :=
  let subsidy := getBlockSubsidy height in
  let miner := subsidy * 0.60 in
  let foundation := subsidy * 0.40 in
  {| height := height; subsidy_total := subsidy;
     miner := miner; foundation := foundation |}.

(** The subsidy after [k] halvings, before the cap. *)
Definition halved (k : Z) : float := INITIAL_SUBSIDY / Math_pow2 k.

(** The real number a finite binary64 value stands for. *)
Definition SF2Q (x : spec_float) : option Q :=
  match x with
  | S754_zero _ => Some 0%Q
  | S754_finite s m e =>
      Some ((if s then -1 else 1) * inject_Z (Z.pos m) * (2 ^ e))%Q
  | _ => None
  end.

Definition float_value (x : float) : option Q := SF2Q (Prim2SF x).

End Subsidy.

(** ** The response cache ([Cache], [isCacheValid], [clearCache]) and
       [cachedFetch] *)

Module Cache.

Section WithPayload.

(** [D] is the type of the non-nullish values producers return (numbers,
    reward records, mining reports). *)
Context {D : Type}.

Inductive jsval : Type :=
| Undefined
| Null
| Data (d : D).

(** [v !== null && v !== undefined] *)
Definition present (v : jsval) : bool :=
  match v with
  | Data _ => true
  | _ => false
  end.

Record Cache : Type := mkCache {
  data : gmap string jsval;
  updated : Z
}.

(** [Cache.data[key]]: a key that is not a property reads as
    [undefined]. Keys are the metric names the endpoints pass, none of
    which is a property inherited from [Object.prototype]. *)
Definition get (c : Cache) (key : string) : jsval :=
  default Undefined (data c !! key).

Definition empty_data : gmap string jsval :=
  <["total_supply" := Null]>
  (<["circulating_supply" := Null]>
  (<["block_reward" := Null]>
  (<["reward_breakdown" := Null]>
  (<["mining_info" := Null]>
  (<["height" := Null]>
  (<["miner_reward" := Null]>
  (<["foundation_reward" := Null]> ∅))))))).

Definition initial : Cache := {| data := empty_data; updated := 0 |}.

(** [now] is the reading of [Date.now()] inside [isCacheValid]. *)
Definition isCacheValid (ttlMs : Z) (now : Z) (c : Cache) : bool :=
  if updated c =? 0 then false
  else now - updated c <? ttlMs.

Definition clearCache (c : Cache) : Cache :=
  {| data := empty_data; updated := 0 |}.

(** A call either returns a value or throws. *)
Inductive outcome (E : Type) : Type :=
| Returned (v : jsval)
| Thrown (err : E).
Global Arguments Returned {E} v.
Global Arguments Thrown {E} err.

(** [W] is the state of everything outside the cache that a producer can
    touch (the node behind the RPC client); [E] is the type of thrown
    errors. A producer runs against the outside world and returns or
    throws; the producers of the server never touch the cache. *)
Context {W E : Type}.

Definition producer : Type := W -> outcome E * W.

(** [cachedFetch key fn], with the cache and the outside world passed
    explicitly. [now] is the reading of [Date.now()] on entry and
    [now_check] the one [isCacheValid] takes. The [await] runs the
    producer to completion; log writes are left out. *)
Definition cachedFetch (TTL : Z) (now now_check : Z)
    (key : string) (fn : producer) (c : Cache) (w : W)
  : outcome E * Cache * W :=
  if isCacheValid TTL now_check c && present (get c key) then
    (Returned (get c key), c, w)
  else
    match fn w with
    | (Returned value, w') =>
        (Returned value,
         {| data := <[key := value]> (data c); updated := now |}, w')
    | (Thrown err, w') =>
        if present (get c key) then (Returned (get c key), c, w')
        else (Thrown err, c, w')
    end.

End WithPayload.

Global Arguments jsval D : clear implicits.
Global Arguments Cache D : clear implicits.
Global Arguments producer D W E : clear implicits.

End Cache.

(** ** Block statistics ([calculateBlockStats]) *)

Module Stats.

Import Algo.

Record Block : Type := mkBlock {
  height : Z;
  time : Z;
  version : Z
}.

Record AlgoStats : Type := mkAlgoStats {
  blocks_found : nat;
  avg_block_time : option Z
}.

Record BlockStats : Type := mkBlockStats {
  meowpow : AlgoStats;
  scrypt : AlgoStats
}.

(** [b.time && (now - b.time) <= windowSeconds]: a zero [time] is falsy. *)
Definition in_window (now windowSeconds : Z) (b : Block) : bool :=
  negb (time b =? 0) && (now - time b <=? windowSeconds).

(** The body of the [forEach]: push the block on the array of its
    algorithm. [acc] holds [meowpowBlocks] and [scryptBlocks]. *)
Definition separate_step (acc : list Block * list Block) (block : Block)
  : list Block * list Block :=
  let algo := detectAlgo (version block) in
  if String.eqb algo "meowpow" then (fst acc ++ [block], snd acc)
  else if String.eqb algo "scrypt" then (fst acc, snd acc ++ [block])
  else acc.

Definition separate (windowBlocks : list Block) : list Block * list Block :=
  fold_left separate_step windowBlocks ([], []).

(** [arr.sort((a, b) => a.time - b.time)]: the sort of the language is
    stable, so its result is the one of this insertion sort, which puts a
    block in front of the later blocks of equal time. *)
Fixpoint insert_by_time (b : Block) (sorted : list Block) : list Block :=
  match sorted with
  | [] => [b]
  | x :: rest =>
      if time b <=? time x then b :: sorted
      else x :: insert_by_time b rest
  end.

Definition sort_by_time (l : list Block) : list Block :=
  foldr insert_by_time [] l.

(** The loop of [calculateAvgBlockTime] over consecutive blocks. *)
Fixpoint spacings (algoBlocks : list Block) : list Z :=
  match algoBlocks with
  | prev :: (cur :: _) as rest =>
      let spacing := time cur - time prev in
      if (0 <? spacing) && (spacing <=? 3600) then spacing :: spacings rest
      else spacings rest
  | _ => []
  end.

Definition sum (l : list Z) : Z := fold_left Z.add l 0.

(** The quotient is kept as the exact rational: it is only ever passed to
    [Math.round], and the binary64 quotient of a sum of spacings by their
    count cannot reach a half-integer the exact one is below unless there
    are 2^41 spacings or more. *)
Definition calculateAvgBlockTime (algoBlocks : list Block) : option Q :=
  if (length algoBlocks <? 2)%nat then None
  else
    let sp := spacings algoBlocks in
    if (length sp =? 0)%nat then None
    else Some (inject_Z (sum sp) / inject_Z (Z.of_nat (length sp)))%Q.

(** [Math.round]: nearest integer, a tie going up. *)
Definition Math_round (q : Q) : Z := Qfloor (q + (1 # 2))%Q.

(** [avg ? Math.round(avg) : null]: [null] and [0] are falsy. *)
Definition round_or_null (avg : option Q) : option Z :=
  match avg with
  | Some q => if Qeq_bool q 0 then None else Some (Math_round q)
  | None => None
  end.

(** [clock_ms] is the reading of [Date.now()] the function takes. *)
Definition calculateBlockStats (clock_ms : Z)
    (blocks : list Block) (windowMinutes : Z) : BlockStats :=
  let now := clock_ms / 1000 in
  let windowSeconds := windowMinutes * 60 in
  let windowBlocks := List.filter (in_window now windowSeconds) blocks in
  let '(meowpowBlocks, scryptBlocks) := separate windowBlocks in
  let meowpowBlocks := sort_by_time meowpowBlocks in
  let scryptBlocks := sort_by_time scryptBlocks in
  let meowpowAvgTime := calculateAvgBlockTime meowpowBlocks in
  let scryptAvgTime := calculateAvgBlockTime scryptBlocks in
  {| meowpow := {| blocks_found := length meowpowBlocks;
                   avg_block_time := round_or_null meowpowAvgTime |};
     scrypt := {| blocks_found := length scryptBlocks;
                  avg_block_time := round_or_null scryptAvgTime |} |}.

(** *** The aggregation as the specification words it *)

Definition is_algo (algo : string) (b : Block) : bool :=
  String.eqb (detectAlgo (version b)) algo.

(** The in-window samples of one algorithm, in input order. *)
Definition partition_of (algo : string) (now windowSeconds : Z)
    (samples : list Block) : list Block :=
  List.filter
    (fun b => in_window now windowSeconds b && is_algo algo b)
    samples.

(** [spacing[i] = t[i] - t[i-1]] over a list of times. *)
Fixpoint deltas (ts : list Z) : list Z :=
  match ts with
  | prev :: (cur :: _) as rest => (cur - prev) :: deltas rest
  | _ => []
  end.

(** A spacing in (0, 3600]. *)
Definition plausible (d : Z) : bool := (0 <? d) && (d <=? 3600).

(** The spacings that enter the average: the plausible ones among the
    consecutive differences of the times in ascending order. *)
Definition retained_spacings (part : list Block) : list Z :=
  List.filter plausible (deltas (merge_sort Z.le (map time part))).

(** The average of a list of spacings, as an exact rational. *)
Definition mean (sp : list Z) : Q :=
  (inject_Z (sum sp) / inject_Z (Z.of_nat (length sp)))%Q.

(** The statistics of one partition: its size, and the mean of its
    retained spacings rounded to an integer, absent when none is
    retained. *)
Definition summary (part : list Block) : AlgoStats :=
  {| blocks_found := length part;
     avg_block_time :=
       match retained_spacings part with
       | [] => None
       | sp => Some (Math_round (mean sp))
       end |}.

End Stats.

(** ** The RPC client's command parsing ([parseCommand]) *)

Module Rpc.

(** A string is the list of its UTF-16 code units. *)
Definition of_string (s : string) : list N :=
  map Ascii.N_of_ascii (String.list_ascii_of_string s).

(** The code units [trim] strips and the class [\s] matches: WhiteSpace
    and LineTerminator of ECMAScript. *)
Definition is_ws (c : N) : bool :=
  ((0x09 <=? c) && (c <=? 0x0D)
   || (c =? 0x20) || (c =? 0xA0) || (c =? 0x1680)
   || (0x2000 <=? c) && (c <=? 0x200A)
   || (c =? 0x2028) || (c =? 0x2029) || (c =? 0x202F)
   || (c =? 0x205F) || (c =? 0x3000) || (c =? 0xFEFF))%N.

Fixpoint trimStart (s : list N) : list N :=
  match s with
  | c :: rest => if is_ws c then trimStart rest else s
  | [] => []
  end.

Definition trimEnd (s : list N) : list N := rev (trimStart (rev s)).

Definition trim (s : list N) : list N := trimEnd (trimStart s).

(** [s.split(/\s+/)]: the substrings between the maximal runs of
    whitespace; a run at either end leaves an empty substring there.
    [in_sep] says the scan is inside a run, [cur] is the substring being
    collected, last unit first. *)
Fixpoint split_go (in_sep : bool) (cur : list N) (s : list N)
  : list (list N) :=
  match s with
  | [] => [rev cur]
  | c :: rest =>
      if is_ws c then
        if in_sep then split_go true cur rest
        else rev cur :: split_go true [] rest
      else split_go false (c :: cur) rest
  end.

Definition split_ws (s : list N) : list (list N) := split_go false [] s.

(** *** [Number(p)] on a string: StringToNumber *)

Definition is_digit (c : N) : bool := ((48 <=? c) && (c <=? 57))%N.

(** The value of a digit of a radix up to 16, if it is one. *)
Definition digit_of (radix : N) (c : N) : option N :=
  let v :=
    if ((48 <=? c) && (c <=? 57))%N then Some (c - 48)%N
    else if ((97 <=? c) && (c <=? 102))%N then Some (c - 87)%N
    else if ((65 <=? c) && (c <=? 70))%N then Some (c - 55)%N
    else None in
  match v with
  | Some d => if (d <? radix)%N then Some d else None
  | None => None
  end.

(** The longest prefix of decimal digits, and what follows it. *)
Fixpoint span_digits (s : list N) : list N * list N :=
  match s with
  | c :: rest =>
      if is_digit c then
        let '(ds, r) := span_digits rest in (c :: ds, r)
      else ([], s)
  | [] => ([], [])
  end.

(** The number a sequence of digits denotes in a radix; [None] when a
    unit is not a digit of the radix. *)
Fixpoint digits_value (radix : N) (acc : N) (ds : list N) : option N :=
  match ds with
  | [] => Some acc
  | c :: rest =>
      match digit_of radix c with
      | Some d => digits_value radix (radix * acc + d)%N rest
      | None => None
      end
  end.

(** What a StrNumericLiteral denotes, before rounding to binary64. *)
Inductive literal : Type :=
| LInfinity (neg : bool)
| LDecimal (neg : bool) (m : N) (e : Z)   (* (-1)^neg * m * 10^e *)
| LInteger (m : N).                       (* 0x.., 0o.., 0b.. *)

(** ExponentPart, optional, up to the end of the string. *)
Definition parse_exponent (s : list N) : option Z :=
  match s with
  | [] => Some 0
  | c :: rest =>
      if ((c =? 101) || (c =? 69))%N then
        let '(neg, body) :=
          match rest with
          | 43%N :: r => (false, r)
          | 45%N :: r => (true, r)
          | _ => (false, rest)
          end in
        match body, digits_value 10 0 body with
        | _ :: _, Some n => Some (if neg then - Z.of_N n else Z.of_N n)
        | _, _ => None
        end
      else None
  end.

(** StrUnsignedDecimalLiteral. *)
Definition parse_unsigned_decimal (neg : bool) (s : list N)
  : option literal :=
  if bool_decide (s = of_string "Infinity") then Some (LInfinity neg)
  else
    let '(ip, r1) := span_digits s in
    let '(fp, r2, ok) :=
      match r1 with
      | 46%N :: r =>
          let '(fp, r2) := span_digits r in
          (fp, r2, negb (Nat.eqb (length ip + length fp) 0))
      | _ => ([], r1, negb (Nat.eqb (length ip) 0))
      end in
    if ok then
      match digits_value 10 0 (ip ++ fp), parse_exponent r2 with
      | Some m, Some e => Some (LDecimal neg m (e - Z.of_nat (length fp)))
      | _, _ => None
      end
    else None.

(** StrNumericLiteral: a signed decimal literal, or an unsigned binary,
    octal or hexadecimal integer. *)
Definition parse_literal (s : list N) : option literal :=
  match s with
  | 48%N :: c :: body =>
      let radix :=
        if ((c =? 120) || (c =? 88))%N then Some 16%N
        else if ((c =? 111) || (c =? 79))%N then Some 8%N
        else if ((c =? 98) || (c =? 66))%N then Some 2%N
        else None in
      match radix with
      | Some r =>
          match body, digits_value r 0 body with
          | _ :: _, Some m => Some (LInteger m)
          | _, _ => None
          end
      | None => parse_unsigned_decimal false s
      end
  | 43%N :: rest => parse_unsigned_decimal false rest
  | 45%N :: rest => parse_unsigned_decimal true rest
  | _ => parse_unsigned_decimal false s
  end.

(** The binary64 value nearest to a literal's value (ties to even). *)
Definition round_literal (l : literal) : float :=
  match l with
  | LInfinity neg => if neg then neg_infinity else infinity
  | LInteger m => SF2Prim (binary_normalize prec emax (Z.of_N m) 0 false)
  | LDecimal neg m e =>
      match m with
      | N0 => if neg then neg_zero else zero
      | Npos p =>
          if 0 <=? e then
            SF2Prim (binary_normalize prec emax
                       ((if neg then -1 else 1) * (Z.pos p * 10 ^ e)) 0 false)
          else
            SF2Prim (SFdiv prec emax
                       (S754_finite neg p 0)
                       (S754_finite false (Z.to_pos (10 ^ (- e))) 0))
      end
  end.

(** [Number(p)]: [None] stands for NaN, which StringToNumber yields
    exactly when the trimmed string is not empty and not a literal. *)
Definition Number (p : list N) : option float :=
  match trim p with
  | [] => Some zero
  | t => round_literal <$> parse_literal t
  end.

Inductive param : Type :=
| PNum (x : float)
| PStr (s : list N).

(** [p => { const num = Number(p); return isNaN(num) ? p : num; }] *)
Definition coerce (p : list N) : param :=
  match Number p with
  | None => PStr p
  | Some num => PNum num
  end.

Record Command : Type := mkCommand {
  method : list N;
  params : list param
}.

Definition parseCommand (cmd : list N) : Command :=
  let parts := split_ws (trim cmd) in
  let method := hd [] parts in
  let params := map coerce (tl parts) in
  {| method := method; params := params |}.

(** *** Splitting on whitespace, as the specification words it *)

Definition all_ws (s : list N) : bool := forallb is_ws s.
Definition no_ws (s : list N) : bool := forallb (fun c => negb (is_ws c)) s.

Definition starts_with_ws (s : list N) : bool :=
  match s with
  | c :: _ => is_ws c
  | [] => false
  end.

Definition ends_with_ws (s : list N) : bool := starts_with_ws (rev s).

(** [tokens_of s ts]: [ts] are the maximal runs of units of [s] that are
    not whitespace, in order. A run [w] follows whitespace [pre] and ends
    where the string ends or whitespace starts. *)
Inductive tokens_of : list N -> list (list N) -> Prop :=
| tokens_blank (s : list N) :
    all_ws s = true -> tokens_of s []
| tokens_word (pre w rest : list N) (ts : list (list N)) :
    all_ws pre = true ->
    w <> [] ->
    no_ws w = true ->
    rest = [] \/ starts_with_ws rest = true ->
    tokens_of rest ts ->
    tokens_of (pre ++ w ++ rest) (w :: ts).


(** *** Building commands *)

(** The template literals of the server put single spaces between the
    words of a command. *)
Fixpoint unwords (ws : list (list N)) : list N :=
  match ws with
  | [] => []
  | [w] => w
  | w :: rest => w ++ 32%N :: unwords rest
  end.

Fixpoint units_of_uint (u : Decimal.uint) : list N :=
  match u with
  | Decimal.Nil => []
  | Decimal.D0 r => 48%N :: units_of_uint r
  | Decimal.D1 r => 49%N :: units_of_uint r
  | Decimal.D2 r => 50%N :: units_of_uint r
  | Decimal.D3 r => 51%N :: units_of_uint r
  | Decimal.D4 r => 52%N :: units_of_uint r
  | Decimal.D5 r => 53%N :: units_of_uint r
  | Decimal.D6 r => 54%N :: units_of_uint r
  | Decimal.D7 r => 55%N :: units_of_uint r
  | Decimal.D8 r => 56%N :: units_of_uint r
  | Decimal.D9 r => 57%N :: units_of_uint r
  end.

(** [`${n}`] for a number holding an integer [0 <= n < 10^21]: its
    decimal digits. *)
Definition decimal_of_N (n : N) : list N := units_of_uint (N.to_uint n).

(** The units a decimal literal is made of: digits, [.], [e], [E], [+]
    and [-]. *)
Definition is_decimal_unit (c : N) : bool :=
  is_digit c
  || ((c =? 46) || (c =? 101) || (c =? 69) || (c =? 43) || (c =? 45))%N.

End Rpc.

(** ** Log levels ([getLogLevel], [shouldLog]) *)

Module Utils.

(** [process.env.LOG_LEVEL || "info"]: the variable is unset ([None]) or
    a string, and the empty string is falsy. *)
Definition getLogLevel (LOG_LEVEL : option string) : string :=
  match LOG_LEVEL with
  | Some s => if String.eqb s "" then "info" else s
  | None => "info"
  end.

(** What reading a property of the object literal [levels] yields: the
    number of one of its four own properties, a function or object
    inherited from [Object.prototype], or [undefined]. *)
Inductive level_lookup : Type :=
| OwnLevel (n : Z)
| Inherited (name : string)
| NoLevel.

Definition object_prototype_names : list string :=
  ["constructor"; "__proto__"; "hasOwnProperty"; "isPrototypeOf";
   "propertyIsEnumerable"; "toLocaleString"; "toString"; "valueOf";
   "__defineGetter__"; "__defineSetter__"; "__lookupGetter__";
   "__lookupSetter__"].

Definition levels (name : string) : level_lookup :=
  if String.eqb name "error" then OwnLevel 0
  else if String.eqb name "warn" then OwnLevel 1
  else if String.eqb name "info" then OwnLevel 2
  else if String.eqb name "debug" then OwnLevel 3
  else if existsb (String.eqb name) object_prototype_names then Inherited name
  else NoLevel.

(** [v || 2]: [undefined] and [0] are falsy. *)
Definition or_2 (v : level_lookup) : level_lookup :=
  match v with
  | OwnLevel n => if n =? 0 then OwnLevel 2 else OwnLevel n
  | Inherited name => Inherited name
  | NoLevel => OwnLevel 2
  end.

Section Comparison.

(** How [<=] orders two properties inherited from [Object.prototype]: by
    the strings they convert to, which the engine chooses. *)
Variable native_leb : string -> string -> bool.

(** [a <= b]: numbers compare as numbers; an inherited function or object
    converts to a string that is not a number, so against a number the
    comparison is false. *)
Definition js_leb (a b : level_lookup) : bool :=
  match a, b with
  | OwnLevel x, OwnLevel y => x <=? y
  | Inherited f, Inherited g => native_leb f g
  | _, _ => false
  end.

Definition shouldLog (LOG_LEVEL : option string) (level : string) : bool :=
  let currentLevel := getLogLevel LOG_LEVEL in
  js_leb (or_2 (levels level)) (or_2 (levels currentLevel)).

End Comparison.

End Utils.

(** ** The [/mining-info] producer: block scan and report *)

Module Mining.

Import Stats.

(** An RPC call answers or throws. *)
Inductive answer (A E : Type) : Type :=
| Answered (a : A)
| Failed (e : E).
Global Arguments Answered {A E} a.
Global Arguments Failed {A E} e.

(** What [getblock <hash> 1] answers, as far as the producer looks at it:
    [time] is an integer, [version] an integer or missing. *)
Record RawBlock : Type := mkRawBlock {
  raw_time : Z;
  raw_version : option Z
}.

Record AlgoReport (J : Type) : Type := mkAlgoReport {
  difficulty : J;
  hashrate : J;
  report_blocks_found : nat;
  report_avg_block_time : option Z
}.
Global Arguments mkAlgoReport {J}.
Global Arguments difficulty {J}.
Global Arguments hashrate {J}.
Global Arguments report_blocks_found {J}.
Global Arguments report_avg_block_time {J}.

Record Report (J : Type) : Type := mkReport {
  block_height : Z;
  window_minutes : Z;
  report_meowpow : AlgoReport J;
  report_scrypt : AlgoReport J
}.
Global Arguments mkReport {J}.
Global Arguments block_height {J}.
Global Arguments window_minutes {J}.
Global Arguments report_meowpow {J}.
Global Arguments report_scrypt {J}.

Section Node.

(** [W] is the state of the node and the network, [E] the type of thrown
    errors, [Hash] what [getblockhash] answers and [J] what
    [getdifficulty] and [getnetworkhashps] answer. *)
Context {W E Hash J : Type}.

(** A computation that awaits RPC calls. *)
Definition call (A : Type) : Type := W -> answer A E * W.

Definition ret {A} (a : A) : call A := fun w => (Answered a, w).

Definition bind {A B} (c : call A) (k : A -> call B) : call B :=
  fun w =>
    match c w with
    | (Answered a, w') => k a w'
    | (Failed e, w') => (Failed e, w')
    end.

(** [try { ... } catch (err) { log(...) }] around a step that changes
    the block list: on a throw the list stays as it was. *)
Definition try_or_keep {A} (c : call A) (keep : A) : W -> A * W :=
  fun w =>
    match c w with
    | (Answered a, w') => (a, w')
    | (Failed _, w') => (keep, w')
    end.

Local Notation "'await' x := c 'in' k" := (bind c (fun x => k))
  (at level 10, x name, c at level 100, k at level 200, only parsing).

(** The calls the producer makes: [rpc("getblockcount")],
    [rpc("getdifficulty <a>")], [rpc("getnetworkhashps 0 -1 <a>")],
    [rpc(`getblockhash ${height}`)] and [rpc(`getblock ${hash} 1`)], whose
    answer is a falsy value ([None]) or a block. *)
Variable getblockcount : call Z.
Variable getdifficulty : Z -> call J.
Variable getnetworkhashps : Z -> call J.
Variable getblockhash : Z -> call Hash.
Variable getblock : Hash -> call (option RawBlock).

Definition windowMinutes : Z := 60.
Definition blocksToFetch : Z := 576.

(** The body of the [try] for one height. *)
Definition fetch_height (height : Z) (blocks : list Block)
  : call (list Block) :=
  await hash := getblockhash height in
  await block := getblock hash in
  ret match block with
      | Some b =>
          match raw_version b with
          | Some v =>
              if negb (raw_time b =? 0) then
                blocks ++ [{| height := height; time := raw_time b;
                              version := v |}]
              else blocks
          | None => blocks
          end
      | None => blocks
      end.

(** [count] iterations of the [for] loop, starting at [height]. *)
Fixpoint scan_from (count : nat) (height : Z) (blocks : list Block) (w : W)
  : list Block * W :=
  match count with
  | O => (blocks, w)
  | S n =>
      let '(blocks', w') :=
        try_or_keep (fetch_height height blocks) blocks w in
      scan_from n (height + 1) blocks' w'
  end.

(** The loop from [startHeight] to [blockHeight]. *)
Definition scan_blocks (blockHeight : Z) (w : W) : list Block * W :=
  let startHeight := Z.max 0 (blockHeight - blocksToFetch + 1) in
  scan_from (Z.to_nat (blockHeight - startHeight + 1)) startHeight [] w.

(** The producer passed to [cachedFetch("mining_info", ...)]; [clock_ms]
    is the reading of [Date.now()] inside [calculateBlockStats]. *)
Definition mining_info (clock_ms : Z) : call (Report J) :=
  await blockHeight := getblockcount in
  await meowpowDifficulty := getdifficulty 0 in
  await scryptDifficulty := getdifficulty 1 in
  await meowpowHashrate := getnetworkhashps 0 in
  await scryptHashrate := getnetworkhashps 1 in
  fun w =>
    let '(blocks, w') := scan_blocks blockHeight w in
    let blockStats := calculateBlockStats clock_ms blocks windowMinutes in
    (Answered
       {| block_height := blockHeight;
          window_minutes := windowMinutes;
          report_meowpow :=
            {| difficulty := meowpowDifficulty;
               hashrate := meowpowHashrate;
               report_blocks_found := blocks_found (meowpow blockStats);
               report_avg_block_time := avg_block_time (meowpow blockStats) |};
          report_scrypt :=
            {| difficulty := scryptDifficulty;
               hashrate := scryptHashrate;
               report_blocks_found := blocks_found (scrypt blockStats);
               report_avg_block_time := avg_block_time (scrypt blockStats) |}
       |}, w').

End Node.

End Mining.

(** ** The RPC call ([rpc]) *)

Module RpcCall.

Import Rpc Mining.

(** [RPC_USER] and [RPC_PASS]: unset ([None]) or a string. *)
Record Credentials : Type := mkCredentials {
  RPC_USER : option (list N);
  RPC_PASS : option (list N)
}.

(** [undefined] and the empty string are falsy. *)
Definition truthy_text (t : option (list N)) : bool :=
  match t with
  | Some (_ :: _) => true
  | _ => false
  end.

(** What is posted: the two halves of the Basic authorization and the
    fields of the JSON-RPC body. *)
Record Request : Type := mkRequest {
  auth_user : list N;
  auth_pass : list N;
  id : Z;
  req_method : list N;
  req_params : list param
}.

(** The decoded body [data], as far as [rpc] looks at it: [null], on
    which reading [data.error] throws; a truthy [data.error], with the
    text [data.error.message || JSON.stringify(data.error)]; or a falsy
    [data.error], with [data.result]. *)
Inductive Body (J : Type) : Type :=
| NullBody
| ErrorBody (text : list N)
| ResultBody (result : J).
Global Arguments NullBody {J}.
Global Arguments ErrorBody {J} text.
Global Arguments ResultBody {J} result.

(** What [fetch] and [response.json()] come to: [fetch] rejects with a
    message, or resolves to a response whose body decodes or whose
    decoding rejects with a message. *)
Inductive HttpOutcome (J : Type) : Type :=
| NetworkError (message : list N)
| Response (ok : bool) (status : N) (statusText : list N)
    (json : answer (Body J) (list N)).
Global Arguments NetworkError {J} message.
Global Arguments Response {J} ok status statusText json.

Definition credentials_message : list N :=
  of_string "RPC_USER and RPC_PASS must be set in environment variables".

(** [`RPC command failed: ${cmd} - ${err.message}`] *)
Definition command_failed (cmd message : list N) : list N :=
  of_string "RPC command failed: " ++ cmd ++ of_string " - " ++ message.

Section Transport.

Context {W J : Type}.

(** The network: one POST of a request. *)
Variable transport : Request -> W -> HttpOutcome J * W.

(** The message of the TypeError the engine throws on [null.error]. *)
Variable type_error_message : list N.

(** [rpc(cmd)]; [now] is the reading of [Date.now()] used as the request
    id. An error is the message of the [Error] thrown; the write to the
    console is left out. *)
Definition rpc (env : Credentials) (now : Z) (cmd : list N)
  : W -> answer J (list N) * W :=
  fun w =>
    if negb (truthy_text (RPC_USER env)) || negb (truthy_text (RPC_PASS env))
    then (Failed credentials_message, w)
    else
      let c := parseCommand cmd in
      let request :=
        {| auth_user := default [] (RPC_USER env);
           auth_pass := default [] (RPC_PASS env);
           id := now;
           req_method := method c;
           req_params := params c |} in
      match transport request w with
      | (NetworkError message, w') => (Failed (command_failed cmd message), w')
      | (Response ok status statusText json, w') =>
          if negb ok then
            (Failed (command_failed cmd
                       (of_string "HTTP " ++ decimal_of_N status
                        ++ of_string ": " ++ statusText)), w')
          else
            match json with
            | Failed message => (Failed (command_failed cmd message), w')
            | Answered NullBody =>
                (Failed (command_failed cmd type_error_message), w')
            | Answered (ErrorBody text) =>
                (Failed (command_failed cmd (of_string "RPC error: " ++ text)),
                 w')
            | Answered (ResultBody result) => (Answered result, w')
            end
      end.

End Transport.

End RpcCall.

(** * Properties *)

(** ** Algorithm detection *)

Module AlgoFacts.

Import Algo.

Lemma land_clear_low_byte (x : Z) : Z.land x (-256) = 256 * (x / 256).
Proof.
  change (-256) with (Z.lnot (Z.ones 8)).
  rewrite <- Z.ldiff_land, Z.ldiff_ones_r by lia.
  rewrite Z.shiftr_div_pow2, Z.shiftl_mul_pow2 by lia.
  change (2 ^ 8) with 256. lia.
Qed.

Lemma land_MASK_unsigned (u : Z) :
  0 <= u < 2 ^ 32 -> Z.land u MASK = 256 * (u / 256).
Proof.
  intros Hu.
  change MASK with (Z.land (Z.ones 32) (-256)).
  rewrite Z.land_assoc, Z.land_ones by lia.
  rewrite Z.mod_small by lia.
  apply land_clear_low_byte.
Qed.

Lemma ToInt32_range (x : Z) : - 2 ^ 31 <= ToInt32 x < 2 ^ 31.
Proof.
  unfold ToInt32. change (2 ^ 31) with 2147483648.
  change (2 ^ 32) with 4294967296.
  pose proof (Z.mod_pos_bound (x + 2147483648) 4294967296). lia.
Qed.

Lemma ToInt32_small (x : Z) : - 2 ^ 31 <= x < 2 ^ 31 -> ToInt32 x = x.
Proof.
  intros Hx. unfold ToInt32.
  change (2 ^ 31) with 2147483648 in *.
  change (2 ^ 32) with 4294967296.
  rewrite Z.mod_small by lia. lia.
Qed.

Lemma ToInt32_unsigned (x : Z) :
  ToInt32 x = if x mod 2 ^ 32 <? 2 ^ 31 then x mod 2 ^ 32
              else x mod 2 ^ 32 - 2 ^ 32.
Proof.
  unfold ToInt32.
  change (2 ^ 31) with 2147483648. change (2 ^ 32) with 4294967296.
  destruct (Z.ltb_spec (x mod 4294967296) 2147483648);
    Z.div_mod_to_equations; lia.
Qed.

(** The masked value the code compares is the signed reading of the
    masked unsigned version. *)
Lemma js_and_MASK (v : Z) :
  js_and v MASK = ToInt32 (Z.land (v mod 2 ^ 32) MASK).
Proof.
  unfold js_and.
  change (ToInt32 MASK) with (-256).
  assert (Hu : 0 <= v mod 2 ^ 32 < 2 ^ 32) by (apply Z.mod_pos_bound; lia).
  rewrite land_MASK_unsigned by exact Hu.
  rewrite land_clear_low_byte.
  pose proof (ToInt32_range v) as Hr.
  rewrite (ToInt32_unsigned v) in *.
  set (u := v mod 2 ^ 32) in *.
  change (2 ^ 31) with 2147483648 in *. change (2 ^ 32) with 4294967296 in *.
  rewrite ToInt32_small.
  2:{ change (2 ^ 31) with 2147483648.
      destruct (u <? 2147483648); Z.div_mod_to_equations; lia. }
  unfold ToInt32.
  change (2 ^ 31) with 2147483648. change (2 ^ 32) with 4294967296.
  destruct (Z.ltb_spec u 2147483648); Z.div_mod_to_equations; lia.
Qed.

Lemma ToInt32_eq_low (x c : Z) :
  0 <= x < 2 ^ 32 -> 0 <= c < 2 ^ 31 -> (ToInt32 x =? c) = (x =? c).
Proof.
  intros Hx Hc. unfold ToInt32.
  change (2 ^ 31) with 2147483648 in *. change (2 ^ 32) with 4294967296 in *.
  destruct (Z.eqb_spec x c) as [->|Hne].
  - apply Z.eqb_eq. Z.div_mod_to_equations. lia.
  - apply Z.eqb_neq. Z.div_mod_to_equations. lia.
Qed.

Lemma land_MASK_range (u : Z) : 0 <= u < 2 ^ 32 -> 0 <= Z.land u MASK < 2 ^ 32.
Proof.
  intros Hu. rewrite land_MASK_unsigned by exact Hu.
  change (2 ^ 32) with 4294967296 in *. Z.div_mod_to_equations. lia.
Qed.

(** [detectAlgo] in terms of the unsigned 32-bit reading of the version. *)
Lemma detectAlgo_unsigned (v : Z) :
  detectAlgo v =
    if Z.land (v mod 2 ^ 32) 0xFFFFFF00 =? 0x30090000 then "meowpow"
    else if Z.land (v mod 2 ^ 32) 0xFFFFFF00 =? 0x30090100 then "scrypt"
    else "unknown".
Proof.
  unfold detectAlgo. rewrite js_and_MASK.
  assert (Hu : 0 <= v mod 2 ^ 32 < 2 ^ 32) by (apply Z.mod_pos_bound; lia).
  pose proof (land_MASK_range _ Hu) as Hm.
  rewrite !ToInt32_eq_low by (unfold MPW, SCR; lia).
  reflexivity.
Qed.

(** Setting the low byte does not change the masked value. *)
Lemma js_and_js_or_low_byte (v : Z) :
  js_and (js_or v 0xFF) MASK = js_and v MASK.
Proof.
  unfold js_and, js_or.
  change (ToInt32 MASK) with (-256). change (ToInt32 255) with 255.
  pose proof (ToInt32_range v) as Hr.
  set (a := ToInt32 v) in *.
  assert (Hl : Z.land (Z.lor a 255) (-256) = Z.land a (-256)).
  { rewrite Z.land_lor_distr_l.
    change (Z.land 255 (-256)) with 0. apply Z.lor_0_r. }
  assert (Hb : - 2 ^ 31 <= Z.lor a 255 < 2 ^ 31).
  { rewrite !land_clear_low_byte in Hl.
    change (2 ^ 31) with 2147483648 in *.
    Z.div_mod_to_equations. lia. }
  rewrite !(ToInt32_small (Z.lor a 255)) by exact Hb.
  rewrite Hl. reflexivity.
Qed.

(** C5. [detectAlgo] masks the version with 0xFFFFFF00 and answers
    "meowpow" when the masked value is 0x30090000, "scrypt" when it is
    0x30090100 and "unknown" otherwise, for every version (read as a
    32-bit pattern); 0x30090042 is MeowPow, 0x30090177 is Scrypt and
    0x12345678 is unknown. *)
Theorem detectAlgo_mask_classifies :
  (forall v : Z,
     detectAlgo v =
       if Z.land (v mod 2 ^ 32) 0xFFFFFF00 =? 0x30090000 then "meowpow"
       else if Z.land (v mod 2 ^ 32) 0xFFFFFF00 =? 0x30090100 then "scrypt"
       else "unknown")
  /\ detectAlgo 0x30090042 = "meowpow"
  /\ detectAlgo 0x30090177 = "scrypt"
  /\ detectAlgo 0x12345678 = "unknown".
Proof.
  split; [exact detectAlgo_unsigned|].
  repeat split; reflexivity.
Qed.

(** C6. For every version, [detectAlgo] answers exactly one of the three
    kinds, and the answer for [v] and for [v | 0xFF] is the same: the low
    byte does not matter. *)
Theorem detectAlgo_low_byte_irrelevant (v : Z) :
  (detectAlgo v = "meowpow" /\ detectAlgo v <> "scrypt"
     /\ detectAlgo v <> "unknown"
   \/ detectAlgo v = "scrypt" /\ detectAlgo v <> "meowpow"
     /\ detectAlgo v <> "unknown"
   \/ detectAlgo v = "unknown" /\ detectAlgo v <> "meowpow"
     /\ detectAlgo v <> "scrypt")
  /\ detectAlgo v = detectAlgo (js_or v 0xFF).
Proof.
  split.
  - unfold detectAlgo.
    destruct (js_and v MASK =? MPW); [left; repeat split; discriminate|].
    destruct (js_and v MASK =? SCR); [right; left; repeat split; discriminate|].
    right; right; repeat split; discriminate.
  - unfold detectAlgo. rewrite js_and_js_or_low_byte. reflexivity.
Qed.


(** The versions of each algorithm are one block of 256 consecutive
    32-bit patterns: 0x30090000 to 0x300900FF is MeowPow, 0x30090100 to
    0x300901FF is Scrypt. *)
Theorem detectAlgo_ranges (v : Z) :
  (detectAlgo v = "meowpow"
   <-> 0x30090000 <= v mod 2 ^ 32 <= 0x300900FF)
  /\ (detectAlgo v = "scrypt"
      <-> 0x30090100 <= v mod 2 ^ 32 <= 0x300901FF).
Proof.
  rewrite detectAlgo_unsigned.
  assert (Hu : 0 <= v mod 2 ^ 32 < 2 ^ 32) by (apply Z.mod_pos_bound; lia).
  pose proof (land_MASK_unsigned _ Hu) as Hl. unfold MASK in Hl.
  rewrite Hl. clear Hl.
  set (u := v mod 2 ^ 32) in *. change (2 ^ 32) with 4294967296 in Hu.
  destruct (Z.eqb_spec (256 * (u / 256)) 805896192) as [Hm|Hm];
    [|destruct (Z.eqb_spec (256 * (u / 256)) 805896448) as [Hs|Hs]];
    (split; split; intros H;
     first [ reflexivity
           | discriminate H
           | Z.div_mod_to_equations; lia ]).
Qed.

Lemma detectAlgo_ranges_witness : detectAlgo 0x300900A7 = "meowpow".
Proof.
  apply (proj2 (proj1 (detectAlgo_ranges 0x300900A7))).
  split; apply Z.leb_le; reflexivity.
Defined.

(** A version classifies the same whether the node reports it as a signed
    or as an unsigned 32-bit integer: [detectAlgo] depends on the version
    modulo 2^32 only. *)
Theorem detectAlgo_mod_2_32 (v v' : Z) :
  v mod 2 ^ 32 = v' mod 2 ^ 32 -> detectAlgo v = detectAlgo v'.
Proof. intros H. rewrite !detectAlgo_unsigned, H. reflexivity. Qed.

Lemma detectAlgo_mod_2_32_witness :
  detectAlgo (0x30090142 - 2 ^ 32) = detectAlgo 0x30090142.
Proof. apply detectAlgo_mod_2_32. reflexivity. Defined.

End AlgoFacts.

(** ** Block subsidy *)

Module SubsidyFacts.

Import Subsidy.
Local Open Scope float_scope.

(** Before the cap the quotient is exact, and the two shares add up to it
    with no rounding error at all. *)
Lemma halved_exact (n : nat) :
  (n < 64)%nat ->
  (exists q : Q,
     float_value (halved (Z.of_nat n)) = Some q
     /\ (q == 5000 / 2 ^ Z.of_nat n)%Q)
  /\ halved (Z.of_nat n) * 0.60 + halved (Z.of_nat n) * 0.40
     = halved (Z.of_nat n).
Proof.
  intros Hn.
  do 64 (destruct n as [|n];
         [split; [eexists; split; vm_compute; reflexivity
                 | vm_compute; reflexivity]|]).
  lia.
Qed.

Lemma getBlockSubsidy_halvings (h : Z) :
  getBlockSubsidy h =
    if (64 <=? h / 2100000)%Z then 0 else halved (h / 2100000).
Proof. reflexivity. Qed.

(** C2. At every height [h >= 0] the subsidy is exactly
    5000 / 2^floor(h/2100000) while that exponent is below 64 and zero from
    then on; the miner's share is the subsidy times 0.60, the foundation's
    the subsidy times 0.40, and the two shares add up to the subsidy. At
    height 0 the record is (5000, 3000, 2000), at height 2100000 it is
    (2500, 1500, 1000). *)
Theorem block_reward_schedule (h : Z) :
  (0 <= h)%Z ->
  let r := block_reward h in
  (if (h / 2100000 <? 64)%Z then
     exists q : Q,
       float_value (subsidy_total r) = Some q
       /\ (q == 5000 / 2 ^ (h / 2100000))%Q
   else subsidy_total r = 0)
  /\ subsidy_total r = getBlockSubsidy h
  /\ miner r = subsidy_total r * 0.60
  /\ foundation r = subsidy_total r * 0.40
  /\ miner r + foundation r = subsidy_total r
  /\ block_reward 0 = mkBlockReward 0 5000 3000 2000
  /\ block_reward 2100000 = mkBlockReward 2100000 2500 1500 1000.
Proof.
  intros Hh. cbn zeta.
  unfold block_reward; cbn [subsidy_total miner foundation].
  rewrite getBlockSubsidy_halvings.
  assert (Hk : (0 <= h / 2100000)%Z) by (apply Z.div_pos; lia).
  destruct (Z.ltb_spec (h / 2100000) 64) as [Hlt|Hge].
  - replace (64 <=? h / 2100000)%Z with false by (symmetry; apply Z.leb_gt; lia).
    destruct (halved_exact (Z.to_nat (h / 2100000))) as [Hq Hsum]; [lia|].
    rewrite Z2Nat.id in Hq, Hsum by lia.
    repeat split; try assumption; vm_compute; reflexivity.
  - replace (64 <=? h / 2100000)%Z with true by (symmetry; apply Z.leb_le; lia).
    repeat split; vm_compute; reflexivity.
Qed.

(** The schedule at a height in the second halving period. *)
Lemma block_reward_schedule_witness :
  (0 <= 2100001)%Z
  /\ miner (block_reward 2100001) + foundation (block_reward 2100001)
     = subsidy_total (block_reward 2100001).
Proof.
  split; [lia|].
  apply (block_reward_schedule 2100001). lia.
Defined.


(** The exact value of the subsidy at every height from 0 on. *)
Lemma getBlockSubsidy_value (h : Z) :
  (0 <= h)%Z ->
  exists q : Q,
    float_value (getBlockSubsidy h) = Some q
    /\ (q == if (h / 2100000 <? 64)%Z then 5000 / 2 ^ (h / 2100000) else 0)%Q.
Proof.
  intros Hh. rewrite getBlockSubsidy_halvings.
  assert (Hk : (0 <= h / 2100000)%Z) by (apply Z.div_pos; lia).
  destruct (Z.ltb_spec (h / 2100000) 64) as [Hlt|Hge].
  - replace (64 <=? h / 2100000)%Z with false by (symmetry; apply Z.leb_gt; lia).
    destruct (halved_exact (Z.to_nat (h / 2100000))) as [Hq _]; [lia|].
    rewrite Z2Nat.id in Hq by lia. exact Hq.
  - replace (64 <=? h / 2100000)%Z with true by (symmetry; apply Z.leb_le; lia).
    exists 0%Q. split; reflexivity.
Qed.

Lemma halving_value_antitone (a b : Z) :
  (0 <= a <= b)%Z -> (0 < 5000 / 2 ^ b /\ 5000 / 2 ^ b <= 5000 / 2 ^ a)%Q.
Proof.
  intros Hab.
  assert (Ha : (0 < 2 ^ a)%Q) by (apply Qpower_0_lt; reflexivity).
  assert (Hb : (0 < 2 ^ b)%Q) by (apply Qpower_0_lt; reflexivity).
  assert (Hle : (2 ^ a <= 2 ^ b)%Q)
    by (apply Qpower_le_compat_l; [lia | discriminate]).
  split.
  - apply Qlt_shift_div_l; [exact Hb | lra].
  - apply Qle_shift_div_l; [exact Ha|].
    assert (E : (5000 / 2 ^ b * 2 ^ a == 5000 * 2 ^ a / 2 ^ b)%Q)
      by (field; lra).
    rewrite E. apply Qle_shift_div_r; [exact Hb | lra].
Qed.

(** The subsidy never grows with the height: from height 0 on it is at
    most 5000, never negative, and no larger at a later height than at an
    earlier one. *)
Theorem getBlockSubsidy_antitone (h1 h2 : Z) :
  (0 <= h1 <= h2)%Z ->
  exists q1 q2 : Q,
    float_value (getBlockSubsidy h1) = Some q1
    /\ float_value (getBlockSubsidy h2) = Some q2
    /\ (0 <= q2 /\ q2 <= q1 /\ q1 <= 5000)%Q.
Proof.
  intros Hh.
  destruct (getBlockSubsidy_value h1) as (q1 & Hv1 & Hq1); [lia|].
  destruct (getBlockSubsidy_value h2) as (q2 & Hv2 & Hq2); [lia|].
  exists q1, q2. split; [exact Hv1|]. split; [exact Hv2|].
  assert (Hk1 : (0 <= h1 / 2100000)%Z) by (apply Z.div_pos; lia).
  assert (Hk : (h1 / 2100000 <= h2 / 2100000)%Z)
    by (apply Z.div_le_mono; lia).
  rewrite Hq1, Hq2.
  destruct (Z.ltb_spec (h2 / 2100000) 64) as [H2|H2];
    destruct (Z.ltb_spec (h1 / 2100000) 64) as [H1|H1]; try lia.
  - destruct (halving_value_antitone (h1 / 2100000) (h2 / 2100000)) as [Hp Hm];
      [lia|].
    destruct (halving_value_antitone 0 (h1 / 2100000)) as [_ Hm0]; [lia|].
    assert (E0 : (5000 / 2 ^ 0 == 5000)%Q) by reflexivity.
    rewrite E0 in Hm0.
    repeat split; [lra | exact Hm | exact Hm0].
  - destruct (halving_value_antitone 0 (h1 / 2100000)) as [Hp Hm0]; [lia|].
    assert (E0 : (5000 / 2 ^ 0 == 5000)%Q) by reflexivity.
    rewrite E0 in Hm0.
    repeat split; [lra | lra | exact Hm0].
  - repeat split; lra.
Qed.

Lemma getBlockSubsidy_antitone_witness :
  exists q1 q2 : Q,
    float_value (getBlockSubsidy 2099999) = Some q1
    /\ float_value (getBlockSubsidy 2100000) = Some q2
    /\ (0 <= q2 /\ q2 <= q1 /\ q1 <= 5000)%Q.
Proof. apply (getBlockSubsidy_antitone 2099999 2100000). lia. Defined.

Lemma halved_step (n : nat) :
  (n < 63)%nat -> halved (Z.of_nat n + 1) = halved (Z.of_nat n) / 2.
Proof.
  intros Hn.
  do 63 (destruct n as [|n]; [vm_compute; reflexivity|]).
  lia.
Qed.

(** One halving interval later the subsidy is exactly half, through the
    first 63 halvings and trivially once it is zero; the 64th halving is
    the exception, where the subsidy drops from 5000/2^63 to zero and not
    to its half 5000/2^64. *)
Theorem getBlockSubsidy_halves (h : Z) :
  (0 <= h)%Z ->
  if (h / 2100000 =? 63)%Z then
    getBlockSubsidy (h + 2100000) = 0
    /\ getBlockSubsidy h / 2 = 0x1.388p-52
  else getBlockSubsidy (h + 2100000) = getBlockSubsidy h / 2.
Proof.
  intros Hh. rewrite !getBlockSubsidy_halvings.
  replace ((h + 2100000) / 2100000)%Z with (h / 2100000 + 1)%Z
    by (rewrite <- (Z.div_add h 1 2100000) by lia; f_equal; lia).
  assert (Hk : (0 <= h / 2100000)%Z) by (apply Z.div_pos; lia).
  set (k := (h / 2100000)%Z) in *.
  destruct (Z.eqb_spec k 63) as [->|Hne]; [split; vm_compute; reflexivity|].
  destruct (Z.leb_spec 64 k) as [Hge|Hlt].
  - replace (64 <=? k + 1)%Z with true by (symmetry; apply Z.leb_le; lia).
    vm_compute. reflexivity.
  - replace (64 <=? k + 1)%Z with false by (symmetry; apply Z.leb_gt; lia).
    rewrite <- (Z2Nat.id k) by lia. apply halved_step. lia.
Qed.

Lemma getBlockSubsidy_halves_witness :
  getBlockSubsidy (4200000 + 2100000) = getBlockSubsidy 4200000 / 2.
Proof. apply (getBlockSubsidy_halves 4200000). lia. Defined.

End SubsidyFacts.

(** ** The cache and [cachedFetch] *)

Module CacheFacts.

Import Cache.

Section Fetch.

Context {D W E : Type}.
Variable TTL : Z.

Implicit Types (c : Cache D) (key : string) (fn : producer D W E) (w : W).

Lemma isCacheValid_iff (ttl now : Z) c :
  isCacheValid ttl now c = true <-> updated c <> 0 /\ now - updated c < ttl.
Proof.
  unfold isCacheValid.
  destruct (Z.eqb_spec (updated c) 0) as [Hz|Hnz].
  - split; [discriminate | intros [Hne _]; contradiction].
  - rewrite Z.ltb_lt. tauto.
Qed.

(** A hit leaves everything as it is and does not run the producer. *)
Lemma cachedFetch_hit now now_check key fn c w :
  isCacheValid TTL now_check c = true ->
  present (get c key) = true ->
  cachedFetch TTL now now_check key fn c w = (Returned (get c key), c, w).
Proof.
  intros Hv Hp. unfold cachedFetch. rewrite Hv, Hp. reflexivity.
Qed.

(** On a miss a producer that returns has its value stored and stamped. *)
Lemma cachedFetch_miss_success now now_check key fn c w value w' :
  isCacheValid TTL now_check c && present (get c key) = false ->
  fn w = (Returned value, w') ->
  cachedFetch TTL now now_check key fn c w =
    (Returned value,
     {| data := <[key := value]> (data c); updated := now |}, w').
Proof.
  intros Hm Hfn. unfold cachedFetch. rewrite Hm, Hfn. reflexivity.
Qed.

(** On a miss a producer that throws leaves the cache alone. *)
Lemma cachedFetch_miss_failure now now_check key fn c w err w' :
  isCacheValid TTL now_check c && present (get c key) = false ->
  fn w = (Thrown err, w') ->
  cachedFetch TTL now now_check key fn c w =
    (if present (get c key) then Returned (get c key) else Thrown err,
     c, w').
Proof.
  intros Hm Hfn. unfold cachedFetch. rewrite Hm, Hfn.
  destruct (present (get c key)); reflexivity.
Qed.

Lemma get_insert_eq c key value now :
  get {| data := <[key := value]> (data c); updated := now |} key = value.
Proof. unfold get; cbn. rewrite lookup_insert_eq. reflexivity. Qed.

Lemma get_insert_ne c key key' value now :
  key' <> key ->
  get {| data := <[key' := value]> (data c); updated := now |} key
  = get c key.
Proof. intros Hne. unfold get; cbn. rewrite lookup_insert_ne by exact Hne. reflexivity. Qed.

(** C1. When [cachedFetch] is called while the cache is not fresh or the
    key has no value, and the producer throws, the call returns the value
    cached for the key if there is one, and otherwise throws the
    producer's error. *)
Theorem cachedFetch_failure_fallback now now_check key fn c w err w' :
  isCacheValid TTL now_check c && present (get c key) = false ->
  fn w = (Thrown err, w') ->
  (present (get c key) = true ->
   (cachedFetch TTL now now_check key fn c w).1.1 = Returned (get c key))
  /\ (present (get c key) = false ->
      (cachedFetch TTL now now_check key fn c w).1.1 = Thrown err).
Proof.
  intros Hm Hfn.
  rewrite (cachedFetch_miss_failure _ _ _ _ _ _ _ _ Hm Hfn).
  split; intros Hp; rewrite Hp; reflexivity.
Qed.

(** C10. When the producer throws, [cachedFetch] hands back the cache it
    was given: every stored value and the shared stamp are as before,
    whether the call returns the cached value or throws. *)
Theorem cachedFetch_failure_preserves_cache now now_check key fn c w err w' :
  fn w = (Thrown err, w') ->
  (cachedFetch TTL now now_check key fn c w).1.2 = c
  /\ (forall k, get (cachedFetch TTL now now_check key fn c w).1.2 k = get c k)
  /\ updated (cachedFetch TTL now now_check key fn c w).1.2 = updated c.
Proof.
  intros Hfn.
  assert (Hc : (cachedFetch TTL now now_check key fn c w).1.2 = c).
  { unfold cachedFetch.
    destruct (isCacheValid TTL now_check c && present (get c key));
      [reflexivity|].
    rewrite Hfn. destruct (present (get c key)); reflexivity. }
  rewrite Hc. auto.
Qed.

(** C3. There is one stamp for all keys. [isCacheValid] holds exactly when
    the stamp is not zero and less than the time to live ago; a fetch of
    [K'] whose producer returns sets the stamp to the time of that call;
    a later fetch of another key [K] within the time to live is then a
    hit that returns the value [K] had before, although the same fetch
    on the cache as it was before the write to [K'] runs the producer. *)
Theorem shared_stamp_freshness
    (K K' : string) (fn' fn : producer D W E) c w
    (now now_check now2 now_check2 : Z) (v' : jsval D) (w1 : W) :
  K <> K' ->
  isCacheValid TTL now_check c && present (get c K') = false ->
  fn' w = (Returned v', w1) ->
  present (get c K) = true ->
  now <> 0 ->
  now_check2 - now < TTL ->
  let c1 := (cachedFetch TTL now now_check K' fn' c w).1.2 in
  (forall ttl t c0,
     isCacheValid ttl t c0 = true <-> updated c0 <> 0 /\ t - updated c0 < ttl)
  /\ updated c1 = now
  /\ get c1 K' = v'
  /\ get c1 K = get c K
  /\ cachedFetch TTL now2 now_check2 K fn c1 w1
     = (Returned (get c K), c1, w1)
  /\ (isCacheValid TTL now_check2 c = false ->
      forall v w2, fn w1 = (Returned v, w2) ->
      (cachedFetch TTL now2 now_check2 K fn c w1).1.1 = Returned v).
Proof.
  intros HK Hm Hfn' HpK Hnow Hfresh c1.
  assert (Hc1 : c1 = {| data := <[K' := v']> (data c); updated := now |}).
  { unfold c1. rewrite (cachedFetch_miss_success _ _ _ _ _ _ _ _ Hm Hfn').
    reflexivity. }
  assert (HgK : get c1 K = get c K).
  { rewrite Hc1. apply get_insert_ne. congruence. }
  split; [exact isCacheValid_iff|].
  split; [rewrite Hc1; reflexivity|].
  split; [rewrite Hc1; apply get_insert_eq|].
  split; [exact HgK|].
  split.
  - rewrite <- HgK. apply cachedFetch_hit.
    + apply isCacheValid_iff. rewrite Hc1; cbn. split; assumption.
    + rewrite HgK. exact HpK.
  - intros Hstale v w2 Hfn.
    rewrite (cachedFetch_miss_success now2 now_check2 K fn c w1 v w2);
      [reflexivity | rewrite Hstale; reflexivity | exact Hfn].
Qed.


(** *** Further properties of [cachedFetch] *)

(** What a call returns is what the cache holds for the key afterwards;
    a call that throws leaves the cache as it was. *)
Theorem cachedFetch_returns_stored now now_check key fn c w :
  match (cachedFetch TTL now now_check key fn c w).1.1 with
  | Returned v => get (cachedFetch TTL now now_check key fn c w).1.2 key = v
  | Thrown _ => (cachedFetch TTL now now_check key fn c w).1.2 = c
  end.
Proof.
  unfold cachedFetch.
  destruct (isCacheValid TTL now_check c && present (get c key));
    [reflexivity|].
  destruct (fn w) as [[value|err] w']; cbn [fst snd].
  - apply get_insert_eq.
  - destruct (present (get c key)); reflexivity.
Qed.

(** A call for one key never changes what is stored for another. *)
Theorem cachedFetch_other_keys now now_check key key' fn c w :
  key' <> key ->
  get (cachedFetch TTL now now_check key fn c w).1.2 key' = get c key'.
Proof.
  intros Hne. unfold cachedFetch.
  destruct (isCacheValid TTL now_check c && present (get c key));
    [reflexivity|].
  destruct (fn w) as [[value|err] w']; cbn [fst snd].
  - apply get_insert_ne. congruence.
  - destruct (present (get c key)); reflexivity.
Qed.

(** A call throws only the error its producer threw, and only when the
    key has no value: once a key has a value, no call for it fails. *)
Theorem cachedFetch_throws_only_without_value now now_check key fn c w err :
  (cachedFetch TTL now now_check key fn c w).1.1 = Thrown err ->
  present (get c key) = false /\ exists w', fn w = (Thrown err, w').
Proof.
  unfold cachedFetch.
  destruct (isCacheValid TTL now_check c && present (get c key));
    [discriminate|].
  destruct (fn w) as [[value|err'] w']; cbn [fst snd]; [discriminate|].
  destruct (present (get c key)); [discriminate|].
  intros [= ->]. split; [reflexivity | exists w'; reflexivity].
Qed.

(** After a call has stored a value, a second call for the same key
    within the time to live answers with that value and runs no producer:
    the cache and the outside world stay as the first call left them. *)
Theorem cachedFetch_twice now now_check now2 now_check2 key fn fn2 c w
    (d : D) w1 :
  isCacheValid TTL now_check c && present (get c key) = false ->
  fn w = (Returned (Data d), w1) ->
  now <> 0 ->
  now_check2 - now < TTL ->
  let c1 := (cachedFetch TTL now now_check key fn c w).1.2 in
  cachedFetch TTL now2 now_check2 key fn2 c1 w1 = (Returned (Data d), c1, w1).
Proof.
  intros Hm Hfn Hnow Hfresh c1.
  assert (Hc1 : c1 = {| data := <[key := Data d]> (data c); updated := now |}).
  { unfold c1. rewrite (cachedFetch_miss_success _ _ _ _ _ _ _ _ Hm Hfn).
    reflexivity. }
  assert (Hg : get c1 key = Data d) by (rewrite Hc1; apply get_insert_eq).
  rewrite <- Hg. apply cachedFetch_hit.
  - apply isCacheValid_iff. rewrite Hc1; cbn. split; assumption.
  - rewrite Hg. reflexivity.
Qed.

(** A producer that returns [null] or [undefined] has its answer returned
    and stored, but the key still counts as having no value: every later
    call for it runs its producer, and if that one throws the error is
    passed on. *)
Theorem cachedFetch_nullish_never_hits
    now now_check now2 now_check2 key fn fn2 c w (v : jsval D) w1 :
  isCacheValid TTL now_check c && present (get c key) = false ->
  fn w = (Returned v, w1) ->
  present v = false ->
  let c1 := (cachedFetch TTL now now_check key fn c w).1.2 in
  (cachedFetch TTL now now_check key fn c w).1.1 = Returned v
  /\ get c1 key = v
  /\ cachedFetch TTL now2 now_check2 key fn2 c1 w1
     = match fn2 w1 with
       | (Returned v2, w2) =>
           (Returned v2,
            {| data := <[key := v2]> (data c1); updated := now2 |}, w2)
       | (Thrown err, w2) => (Thrown err, c1, w2)
       end.
Proof.
  intros Hm Hfn Hv c1.
  assert (Hc1 : c1 = {| data := <[key := v]> (data c); updated := now |}).
  { unfold c1. rewrite (cachedFetch_miss_success _ _ _ _ _ _ _ _ Hm Hfn).
    reflexivity. }
  assert (Hg : get c1 key = v) by (rewrite Hc1; apply get_insert_eq).
  split; [rewrite (cachedFetch_miss_success _ _ _ _ _ _ _ _ Hm Hfn);
          reflexivity|].
  split; [exact Hg|].
  unfold cachedFetch. rewrite Hg, Hv, andb_false_r.
  destruct (fn2 w1) as [[v2|err] w2]; reflexivity.
Qed.

Lemma empty_data_nullish key : present (default Undefined (@empty_data D !! key)) = false.
Proof.
  assert (H : map_Forall (fun _ v => v = Null) (@empty_data D)).
  { unfold empty_data.
    repeat (apply map_Forall_insert_2; [reflexivity|]).
    apply map_Forall_empty. }
  destruct (empty_data !! key) as [v|] eqn:Hk; [|reflexivity].
  rewrite (H key v Hk). reflexivity.
Qed.

(** After [clearCache] nothing is served from the cache: for every key a
    call runs its producer, stores what it returns, and passes its error
    on when it throws. *)
Theorem cachedFetch_after_clearCache now now_check key fn c w :
  cachedFetch TTL now now_check key fn (clearCache c) w
  = match fn w with
    | (Returned value, w') =>
        (Returned value,
         {| data := <[key := value]> empty_data; updated := now |}, w')
    | (Thrown err, w') => (Thrown err, clearCache c, w')
    end.
Proof.
  unfold cachedFetch.
  assert (Hp : present (get (clearCache c) key) = false)
    by apply empty_data_nullish.
  rewrite Hp, andb_false_r.
  destruct (fn w) as [[value|err] w']; reflexivity.
Qed.

(** With a time to live of zero or less, and a clock that is not behind
    the stamp, no call is answered from a fresh cache: the producer always
    runs. *)
Theorem cachedFetch_no_ttl now now_check key fn c w :
  TTL <= 0 ->
  updated c <= now_check ->
  cachedFetch TTL now now_check key fn c w
  = match fn w with
    | (Returned value, w') =>
        (Returned value,
         {| data := <[key := value]> (data c); updated := now |}, w')
    | (Thrown err, w') =>
        (if present (get c key) then Returned (get c key) else Thrown err,
         c, w')
    end.
Proof.
  intros Httl Hclock. unfold cachedFetch.
  assert (Hv : isCacheValid TTL now_check c = false).
  { destruct (isCacheValid TTL now_check c) eqn:Hv; [|reflexivity].
    apply isCacheValid_iff in Hv. lia. }
  rewrite Hv. cbn [andb].
  destruct (fn w) as [[value|err] w']; [reflexivity|].
  destruct (present (get c key)); reflexivity.
Qed.


(** A key that has a value keeps one through every call, for whatever
    key, whose producer does not return [null] or [undefined]. *)
Theorem cachedFetch_keeps_values now now_check key key' fn c w :
  (forall v w', fn w = (Returned v, w') -> present v = true) ->
  present (get c key') = true ->
  present (get (cachedFetch TTL now now_check key fn c w).1.2 key') = true.
Proof.
  intros Hfn Hp. unfold cachedFetch.
  destruct (isCacheValid TTL now_check c && present (get c key));
    [exact Hp|].
  destruct (fn w) as [[value|err] w'] eqn:Hw; cbn [fst snd].
  - destruct (decide (key = key')) as [->|Hne].
    + rewrite get_insert_eq. exact (Hfn value w' eq_refl).
    + rewrite get_insert_ne by exact Hne. exact Hp.
  - destruct (present (get c key)); exact Hp.
Qed.

End Fetch.

(** A producer that throws, against a cache holding 7 for the key. *)
Lemma cachedFetch_failure_fallback_witness :
  let c : Cache Z := {| data := <["total_supply" := Data 7]> empty_data;
                        updated := 1000 |} in
  let fn : producer Z unit string := fun w => (Thrown "node down", w) in
  (cachedFetch 60000 70000 70000 "total_supply" fn c tt).1.1
  = Returned (Data 7).
Proof.
  intros c fn.
  apply (cachedFetch_failure_fallback 60000 70000 70000 "total_supply"
           fn c tt "node down"%string tt); reflexivity.
Defined.

Lemma cachedFetch_failure_preserves_cache_witness :
  let fn : producer Z unit string := fun w => (Thrown "node down", w) in
  (cachedFetch 60000 70000 70000 "total_supply" fn initial tt).1.2 = initial.
Proof.
  intros fn.
  apply (cachedFetch_failure_preserves_cache 60000 70000 70000
           "total_supply" fn initial tt "node down"%string tt).
  reflexivity.
Defined.

(** The supply cached at time 1000 is served again at time 100500 because
    the block reward was stored at time 100000. *)
Lemma shared_stamp_freshness_witness :
  let c : Cache Z := {| data := <["total_supply" := Data 7]> empty_data;
                        updated := 1000 |} in
  let fn' : producer Z unit string := fun w => (Returned (Data 5000), w) in
  let fn : producer Z unit string := fun w => (Returned (Data 8), w) in
  let c1 := (cachedFetch 60000 100000 100000 "block_reward" fn' c tt).1.2 in
  cachedFetch 60000 100500 100500 "total_supply" fn c1 tt
  = (Returned (Data 7), c1, tt).
Proof.
  intros c fn' fn c1.
  apply (shared_stamp_freshness 60000 "total_supply" "block_reward"
           fn' fn c tt 100000 100000 100500 100500 (Data 5000) tt);
    try reflexivity; try discriminate; lia.
Defined.


Lemma cachedFetch_other_keys_witness :
  let fn : producer Z unit string := fun w => (Returned (Data 5000), w) in
  get (cachedFetch 60000 70000 70000 "block_reward" fn initial tt).1.2
    "total_supply"
  = get initial "total_supply".
Proof.
  intros fn.
  apply (cachedFetch_other_keys 60000 70000 70000 "block_reward"
           "total_supply" fn initial tt).
  discriminate.
Defined.

Lemma cachedFetch_throws_only_without_value_witness :
  let fn : producer Z unit string := fun w => (Thrown "node down", w) in
  present (get (@initial Z) "total_supply") = false
  /\ exists w', fn tt = (Thrown "node down"%string, w').
Proof.
  intros fn.
  apply (cachedFetch_throws_only_without_value 60000 70000 70000
           "total_supply" fn initial tt "node down"%string).
  reflexivity.
Defined.

Lemma cachedFetch_twice_witness :
  let fn : producer Z unit string := fun w => (Returned (Data 7), w) in
  let fn2 : producer Z unit string := fun w => (Thrown "node down", w) in
  let c1 := (cachedFetch 60000 70000 70000 "total_supply" fn initial tt).1.2 in
  cachedFetch 60000 100000 100001 "total_supply" fn2 c1 tt
  = (Returned (Data 7), c1, tt).
Proof.
  intros fn fn2 c1.
  apply (cachedFetch_twice 60000 70000 70000 100000 100001 "total_supply"
           fn fn2 initial tt 7 tt); try reflexivity; lia.
Defined.

Lemma cachedFetch_nullish_never_hits_witness :
  let fn : producer Z unit string := fun w => (Returned Null, w) in
  (cachedFetch 60000 70000 70000 "total_supply" fn initial tt).1.1
  = Returned Null.
Proof.
  intros fn.
  apply (cachedFetch_nullish_never_hits 60000 70000 70000 70001 70001
           "total_supply" fn fn initial tt Null tt); reflexivity.
Defined.

Lemma cachedFetch_no_ttl_witness :
  let c : Cache Z := {| data := <["total_supply" := Data 7]> empty_data;
                        updated := 1000 |} in
  let fn : producer Z unit string := fun w => (Returned (Data 8), w) in
  cachedFetch 0 1000 1000 "total_supply" fn c tt
  = (Returned (Data 8),
     {| data := <["total_supply" := Data 8]> (data c); updated := 1000 |}, tt).
Proof.
  intros c fn.
  apply (cachedFetch_no_ttl 0 1000 1000 "total_supply" fn c tt); cbn; lia.
Defined.


Lemma cachedFetch_keeps_values_witness :
  let c : Cache Z := {| data := <["total_supply" := Data 7]> empty_data;
                        updated := 1000 |} in
  let fn : producer Z unit string := fun w => (Returned (Data 8), w) in
  present (get (cachedFetch 60000 100000 100000 "total_supply" fn c tt).1.2
             "total_supply") = true.
Proof.
  intros c fn.
  apply (cachedFetch_keeps_values 60000 100000 100000 "total_supply"
           "total_supply" fn c tt); [|reflexivity].
  intros v w' [= <- _]. reflexivity.
Defined.

End CacheFacts.

(** ** Block statistics *)

Module StatsFacts.

Import Algo Stats.

(** *** The two arrays are the two filters *)

Lemma separate_step_filters (acc_m acc_s : list Block) (b : Block) :
  separate_step (acc_m, acc_s) b
  = (acc_m ++ List.filter (is_algo "meowpow") [b],
     acc_s ++ List.filter (is_algo "scrypt") [b]).
Proof.
  unfold separate_step, is_algo. cbn [List.filter fst snd].
  destruct (String.eqb_spec (detectAlgo (version b)) "meowpow") as [Hm|Hm].
  - rewrite Hm. cbn. rewrite app_nil_r. reflexivity.
  - destruct (String.eqb (detectAlgo (version b)) "scrypt");
      rewrite ?app_nil_r; reflexivity.
Qed.

Lemma separate_from (l acc_m acc_s : list Block) :
  fold_left separate_step l (acc_m, acc_s)
  = (acc_m ++ List.filter (is_algo "meowpow") l,
     acc_s ++ List.filter (is_algo "scrypt") l).
Proof.
  revert acc_m acc_s.
  induction l as [|b l IH]; intros acc_m acc_s.
  - cbn. rewrite !app_nil_r. reflexivity.
  - cbn [fold_left]. rewrite separate_step_filters, IH, <- !app_assoc.
    cbn [List.filter].
    destruct (is_algo "meowpow" b), (is_algo "scrypt" b); reflexivity.
Qed.

Lemma separate_filters (l : list Block) :
  separate l
  = (List.filter (is_algo "meowpow") l, List.filter (is_algo "scrypt") l).
Proof. unfold separate. rewrite separate_from. reflexivity. Qed.

Lemma filter_twice {A} (f g : A -> bool) (l : list A) :
  List.filter g (List.filter f l) = List.filter (fun x => f x && g x) l.
Proof.
  induction l as [|x l IH]; [reflexivity|].
  cbn [List.filter]. destruct (f x); cbn [List.filter andb].
  - rewrite IH. reflexivity.
  - exact IH.
Qed.

Lemma partition_of_filters (algo : string) (now ws : Z) (l : list Block) :
  List.filter (is_algo algo) (List.filter (in_window now ws) l)
  = partition_of algo now ws l.
Proof. unfold partition_of. rewrite filter_twice. reflexivity. Qed.

(** *** The sort *)

Lemma insert_by_time_length (b : Block) (l : list Block) :
  length (insert_by_time b l) = S (length l).
Proof.
  induction l as [|x l IH]; cbn [insert_by_time]; [reflexivity|].
  destruct (time b <=? time x); cbn [length]; [reflexivity | now rewrite IH].
Qed.

Lemma sort_by_time_length (l : list Block) :
  length (sort_by_time l) = length l.
Proof.
  induction l as [|x l IH]; [reflexivity|].
  cbn [sort_by_time foldr]. fold (sort_by_time l).
  rewrite insert_by_time_length, IH. reflexivity.
Qed.

Lemma insert_by_time_perm (b : Block) (l : list Block) :
  insert_by_time b l ≡ₚ b :: l.
Proof.
  induction l as [|x l IH]; cbn [insert_by_time]; [reflexivity|].
  destruct (time b <=? time x); [reflexivity|].
  rewrite IH. apply Permutation_swap.
Qed.

Lemma sort_by_time_perm (l : list Block) : sort_by_time l ≡ₚ l.
Proof.
  induction l as [|x l IH]; [reflexivity|].
  cbn [sort_by_time foldr]. fold (sort_by_time l).
  rewrite insert_by_time_perm, IH. reflexivity.
Qed.

Lemma insert_by_time_sorted (b : Block) (l : list Block) :
  Sorted Z.le (map time l) -> Sorted Z.le (map time (insert_by_time b l)).
Proof.
  induction l as [|x l IH]; intros Hs; cbn [insert_by_time].
  - cbn. repeat constructor.
  - destruct (Z.leb_spec (time b) (time x)) as [Hle|Hgt].
    + cbn [map]. constructor; [exact Hs | constructor; exact Hle].
    + cbn [map] in *. apply Sorted_inv in Hs as [Hs Hhd].
      constructor; [apply IH; exact Hs|].
      destruct l as [|y l]; cbn [insert_by_time map].
      * constructor. lia.
      * destruct (time b <=? time y); cbn [map]; constructor;
          [lia | inversion Hhd; assumption].
Qed.

Lemma sort_by_time_sorted (l : list Block) :
  Sorted Z.le (map time (sort_by_time l)).
Proof.
  induction l as [|x l IH]; [constructor|].
  cbn [sort_by_time foldr]. fold (sort_by_time l).
  apply insert_by_time_sorted, IH.
Qed.

(** Whatever stable order the blocks of equal time end up in, their times
    are the times in ascending order. *)
Lemma sort_by_time_times (l : list Block) :
  map time (sort_by_time l) = merge_sort Z.le (map time l).
Proof.
  apply (Sorted_unique Z.le).
  - apply sort_by_time_sorted.
  - apply (Sorted_merge_sort Z.le).
  - rewrite merge_sort_Permutation. apply Permutation_map, sort_by_time_perm.
Qed.

Lemma merge_sort_perm_eq (l l' : list Z) :
  l ≡ₚ l' -> merge_sort Z.le l = merge_sort Z.le l'.
Proof.
  intros Hp. apply (Sorted_unique Z.le).
  - apply (Sorted_merge_sort Z.le).
  - apply (Sorted_merge_sort Z.le).
  - rewrite !merge_sort_Permutation. exact Hp.
Qed.

(** *** Spacings *)

Lemma spacings_deltas (l : list Block) :
  spacings l = List.filter plausible (deltas (map time l)).
Proof.
  induction l as [|a l IH]; [reflexivity|].
  destruct l as [|b l]; [reflexivity|].
  cbn [spacings map deltas List.filter] in *.
  unfold plausible at 1. rewrite IH. reflexivity.
Qed.

Lemma spacings_short (l : list Block) :
  (length l < 2)%nat -> spacings l = [].
Proof.
  destruct l as [|a [|b l]]; cbn [length]; intros Hl; try reflexivity. lia.
Qed.

Lemma sum_from (l : list Z) (a : Z) :
  fold_left Z.add l a = a + sum l.
Proof.
  unfold sum. revert a.
  induction l as [|x l IH]; intros a; cbn [fold_left]; [lia|].
  rewrite (IH (a + x)), (IH (0 + x)). lia.
Qed.

Lemma sum_cons (x : Z) (l : list Z) : sum (x :: l) = x + sum l.
Proof. unfold sum at 1. cbn [fold_left]. rewrite sum_from. lia. Qed.

Lemma sum_plausible_pos (l : list Z) :
  List.filter plausible l <> [] -> 0 < sum (List.filter plausible l).
Proof.
  induction l as [|x l IH]; cbn [List.filter]; [congruence|].
  destruct (plausible x) eqn:Hx; [intros _ | exact IH].
  rewrite sum_cons. unfold plausible in Hx.
  apply andb_prop in Hx as [Hx _]. apply Z.ltb_lt in Hx.
  destruct (List.filter plausible l) as [|y f] eqn:Hf.
  - unfold sum; cbn. lia.
  - assert (0 < sum (y :: f)) by (apply IH; discriminate). lia.
Qed.


(** *** The rounded mean *)


Lemma mean_pos (sp : list Z) :
  0 < sum sp -> sp <> [] -> Qeq_bool (mean sp) 0 = false.
Proof.
  intros Hs Hne.
  destruct (Qeq_bool (mean sp) 0) eqn:Hq; [|reflexivity].
  apply Qeq_bool_eq in Hq. exfalso.
  unfold mean in Hq.
  assert (Hn : (0 < Z.of_nat (length sp))%Z)
    by (destruct sp; [congruence | cbn [length]; lia]).
  assert (Hnq : ~ (inject_Z (Z.of_nat (length sp)) == 0)%Q).
  { unfold Qeq, inject_Z; cbn. lia. }
  assert (Hsq : (inject_Z (sum sp) == 0)%Q).
  { rewrite <- (Qmult_div_r (inject_Z (sum sp)) _ Hnq).
    rewrite Hq. ring. }
  unfold Qeq, inject_Z in Hsq; cbn in Hsq. lia.
Qed.

(** The two early exits of [calculateAvgBlockTime] and the truthiness
    test come down to one question: is any spacing retained? *)
Lemma round_or_null_mean (bl : list Block) :
  round_or_null (calculateAvgBlockTime bl)
  = match spacings bl with
    | [] => None
    | sp => Some (Math_round (mean sp))
    end.
Proof.
  unfold calculateAvgBlockTime.
  destruct (Nat.ltb_spec (length bl) 2) as [Hshort|Hlong].
  - rewrite spacings_short by exact Hshort. reflexivity.
  - destruct (spacings bl) as [|d sp] eqn:Hsp; [reflexivity|].
    change (length (d :: sp) =? 0)%nat with false. cbv iota.
    fold (mean (d :: sp)). cbn [round_or_null].
    rewrite mean_pos; [reflexivity | | discriminate].
    rewrite <- Hsp, spacings_deltas. apply sum_plausible_pos.
    rewrite <- spacings_deltas, Hsp. discriminate.
Qed.

(** *** The result, partition by partition *)

Lemma summary_of_sorted (part : list Block) :
  {| blocks_found := length (sort_by_time part);
     avg_block_time :=
       round_or_null (calculateAvgBlockTime (sort_by_time part)) |}
  = summary part.
Proof.
  unfold summary, retained_spacings.
  rewrite sort_by_time_length, round_or_null_mean, spacings_deltas,
    sort_by_time_times.
  reflexivity.
Qed.

Lemma calculateBlockStats_summary
    (clock_ms : Z) (blocks : list Block) (windowMinutes : Z) :
  calculateBlockStats clock_ms blocks windowMinutes
  = {| meowpow :=
         summary (partition_of "meowpow" (clock_ms / 1000)
                    (windowMinutes * 60) blocks);
       scrypt :=
         summary (partition_of "scrypt" (clock_ms / 1000)
                    (windowMinutes * 60) blocks) |}.
Proof.
  unfold calculateBlockStats. cbn zeta.
  rewrite separate_filters, !partition_of_filters, !summary_of_sorted.
  reflexivity.
Qed.

Lemma filter_perm {A} (f : A -> bool) (l l' : list A) :
  l ≡ₚ l' -> List.filter f l ≡ₚ List.filter f l'.
Proof.
  induction 1 as [|x l l' _ IH|x y l|l l' l'' _ IH1 _ IH2]; cbn [List.filter].
  - reflexivity.
  - destruct (f x); [constructor|]; exact IH.
  - destruct (f x), (f y); try reflexivity. apply Permutation_swap.
  - etransitivity; eassumption.
Qed.

Lemma summary_perm (part part' : list Block) :
  part ≡ₚ part' -> summary part = summary part'.
Proof.
  intros Hp. unfold summary, retained_spacings.
  rewrite (Permutation_length Hp).
  rewrite (merge_sort_perm_eq (map time part) (map time part'))
    by (apply Permutation_map, Hp).
  reflexivity.
Qed.


Lemma retained_spacings_short (part : list Block) :
  (length part < 2)%nat -> retained_spacings part = [].
Proof.
  intros Hl. unfold retained_spacings.
  pose proof (Permutation_length (merge_sort_Permutation Z.le (map time part)))
    as Hlen.
  rewrite length_map in Hlen.
  destruct (merge_sort Z.le (map time part)) as [|a [|b ts]];
    cbn [length] in Hlen; try reflexivity.
  lia.
Qed.



(** C7. The result is the same for every reordering of the samples. *)
Theorem calculateBlockStats_permutation
    (clock_ms : Z) (blocks blocks' : list Block) (windowMinutes : Z) :
  blocks ≡ₚ blocks' ->
  calculateBlockStats clock_ms blocks windowMinutes
  = calculateBlockStats clock_ms blocks' windowMinutes.
Proof.
  intros Hp. rewrite !calculateBlockStats_summary.
  f_equal; apply summary_perm, filter_perm, Hp.
Qed.

Lemma calculateBlockStats_permutation_witness :
  let b1 := mkBlock 10 1000 0x30090000 in
  let b2 := mkBlock 11 1100 0x30090001 in
  let b3 := mkBlock 12 1100 0x30090102 in
  calculateBlockStats 1300000 [b1; b2; b3] 60
  = calculateBlockStats 1300000 [b2; b1; b3] 60.
Proof.
  intros b1 b2 b3.
  apply (calculateBlockStats_permutation 1300000 [b1; b2; b3] [b2; b1; b3] 60).
  apply Permutation_swap.
Defined.

(** C8, as the code has it. [calculateBlockStats] is given the blocks and
    the window only and takes the time from the wall clock; the whole
    seconds of that reading, with the blocks and the window, determine
    the result. *)
Theorem calculateBlockStats_clock_seconds
    (clock_ms clock_ms' : Z) (blocks : list Block) (windowMinutes : Z) :
  clock_ms / 1000 = clock_ms' / 1000 ->
  calculateBlockStats clock_ms blocks windowMinutes
  = calculateBlockStats clock_ms' blocks windowMinutes.
Proof.
  intros Hsec. rewrite !calculateBlockStats_summary, Hsec. reflexivity.
Qed.

Lemma calculateBlockStats_clock_seconds_witness :
  calculateBlockStats 1300000 [mkBlock 10 1000 0x30090000] 60
  = calculateBlockStats 1300999 [mkBlock 10 1000 0x30090000] 60.
Proof.
  apply (calculateBlockStats_clock_seconds 1300000 1300999).
  reflexivity.
Defined.

(** C8, as stated, fails: the same blocks and window give different
    results at two readings of the wall clock, which the caller does not
    supply. *)
Lemma calculateBlockStats_depends_on_wall_clock :
  calculateBlockStats 1300000 [mkBlock 10 1000 0x30090000] 60
  <> calculateBlockStats 9000000 [mkBlock 10 1000 0x30090000] 60.
Proof. vm_compute. discriminate. Qed.


(** *** Further properties of [calculateBlockStats] *)

Lemma stats_of_result
    (clock_ms : Z) (blocks : list Block) (windowMinutes : Z) (st : AlgoStats) :
  st = meowpow (calculateBlockStats clock_ms blocks windowMinutes)
  \/ st = scrypt (calculateBlockStats clock_ms blocks windowMinutes) ->
  exists algo,
    (algo = "meowpow" \/ algo = "scrypt")
    /\ st = summary (partition_of algo (clock_ms / 1000)
                       (windowMinutes * 60) blocks).
Proof.
  rewrite calculateBlockStats_summary. cbn [meowpow scrypt].
  intros [->| ->]; eexists; (split; [|reflexivity]); auto.
Qed.

Lemma plausible_bounds (l : list Z) :
  Z.of_nat (length (List.filter plausible l)) <= sum (List.filter plausible l)
  /\ sum (List.filter plausible l)
     <= 3600 * Z.of_nat (length (List.filter plausible l)).
Proof.
  induction l as [|x l IH]; cbn [List.filter]; [unfold sum; cbn; lia|].
  destruct (plausible x) eqn:Hx; [|exact IH].
  rewrite sum_cons. cbn [length]. unfold plausible in Hx.
  apply andb_prop in Hx as [Hlo Hhi].
  apply Z.ltb_lt in Hlo. apply Z.leb_le in Hhi. lia.
Qed.

Lemma Math_round_between (s n lo hi : Z) :
  0 < n -> lo * n <= s <= hi * n ->
  lo <= Math_round (inject_Z s / inject_Z n) <= hi.
Proof.
  intros Hn [Hlo Hhi].
  assert (Hnq : (0 < inject_Z n)%Q) by (unfold Qlt, inject_Z; cbn; lia).
  assert (Hl : (inject_Z lo <= inject_Z s / inject_Z n)%Q).
  { apply Qle_shift_div_l; [exact Hnq|].
    rewrite <- inject_Z_mult, <- Zle_Qle. exact Hlo. }
  assert (Hh : (inject_Z s / inject_Z n <= inject_Z hi)%Q).
  { apply Qle_shift_div_r; [exact Hnq|].
    rewrite <- inject_Z_mult, <- Zle_Qle. exact Hhi. }
  unfold Math_round. split.
  - rewrite <- (Qfloor_Z lo). apply Qfloor_resp_le. lra.
  - assert (Hf : Qfloor (inject_Z s / inject_Z n + (1 # 2))
                 <= Qfloor (inject_Z hi + (1 # 2))) by (apply Qfloor_resp_le; lra).
    assert (Hhalf : Qfloor (inject_Z hi + (1 # 2)) = hi).
    { unfold Qfloor, inject_Z, Qplus; cbn.
      Z.div_mod_to_equations. lia. }
    lia.
Qed.

(** An average block time, when there is one, is an integer from 1 to
    3600 seconds, and there is one only if at least two blocks were
    found. *)
Theorem avg_block_time_bounds
    (clock_ms : Z) (blocks : list Block) (windowMinutes : Z)
    (st : AlgoStats) (avg : Z) :
  st = meowpow (calculateBlockStats clock_ms blocks windowMinutes)
  \/ st = scrypt (calculateBlockStats clock_ms blocks windowMinutes) ->
  avg_block_time st = Some avg ->
  1 <= avg <= 3600 /\ (2 <= blocks_found st)%nat.
Proof.
  intros Hst Havg.
  destruct (stats_of_result _ _ _ _ Hst) as (algo & _ & ->).
  set (part := partition_of algo (clock_ms / 1000) (windowMinutes * 60) blocks)
    in *.
  unfold summary in *. cbn [avg_block_time blocks_found] in *.
  destruct (retained_spacings part) as [|d sp] eqn:Hsp; [discriminate|].
  injection Havg as <-. split.
  - unfold mean. rewrite <- Hsp. unfold retained_spacings.
    pose proof (plausible_bounds (deltas (merge_sort Z.le (map time part))))
      as [Hlo Hhi].
    apply Math_round_between; [|lia].
    fold (retained_spacings part). rewrite Hsp. cbn [length]. lia.
  - destruct (Nat.lt_ge_cases (length part) 2) as [Hshort|Hlong];
      [|exact Hlong].
    rewrite retained_spacings_short in Hsp by exact Hshort. discriminate.
Qed.

Lemma avg_block_time_bounds_witness :
  let blocks := [mkBlock 10 1000 0x30090000; mkBlock 11 1100 0x30090001;
                 mkBlock 12 1300 0x30090002] in
  1 <= 150 <= 3600
  /\ (2 <= blocks_found (meowpow (calculateBlockStats 1300000 blocks 60)))%nat.
Proof.
  intros blocks.
  apply (avg_block_time_bounds 1300000 blocks 60
           (meowpow (calculateBlockStats 1300000 blocks 60)) 150).
  - left. reflexivity.
  - reflexivity.
Defined.


Lemma is_algo_exclusive (b : Block) :
  is_algo "meowpow" b && is_algo "scrypt" b = false.
Proof.
  unfold is_algo.
  destruct (String.eqb_spec (detectAlgo (version b)) "meowpow") as [->|];
    reflexivity.
Qed.

Lemma length_filter_split {A} (p q : A -> bool) (l : list A) :
  (forall x, p x && q x = false) ->
  (length (List.filter p l) + length (List.filter q l)
   = length (List.filter (fun x => p x || q x) l))%nat.
Proof.
  intros Hpq. induction l as [|x l IH]; [reflexivity|].
  cbn [List.filter]. specialize (Hpq x).
  destruct (p x), (q x); cbn [orb length] in *; try discriminate; lia.
Qed.

Lemma length_filter_le {A} (p : A -> bool) (l : list A) :
  (length (List.filter p l) <= length l)%nat.
Proof.
  induction l as [|x l IH]; [reflexivity|].
  cbn [List.filter]. destruct (p x); cbn [length]; lia.
Qed.

(** The two counts together are the number of blocks that are in the
    window and of a known algorithm: a block is counted at most once, a
    block of unknown version never, and the counts cannot exceed the number
    of blocks given. *)
Theorem blocks_found_total
    (clock_ms : Z) (blocks : list Block) (windowMinutes : Z) :
  let r := calculateBlockStats clock_ms blocks windowMinutes in
  (blocks_found (meowpow r) + blocks_found (scrypt r)
   = length (List.filter
               (fun b => in_window (clock_ms / 1000) (windowMinutes * 60) b
                         && (is_algo "meowpow" b || is_algo "scrypt" b))
               blocks))%nat
  /\ (blocks_found (meowpow r) + blocks_found (scrypt r) <= length blocks)%nat.
Proof.
  cbn zeta. rewrite calculateBlockStats_summary.
  unfold summary. cbn [meowpow scrypt blocks_found].
  rewrite <- !partition_of_filters.
  rewrite length_filter_split by exact is_algo_exclusive.
  rewrite filter_twice. split; [reflexivity|]. apply length_filter_le.
Qed.

Lemma partition_of_filter (keep : Block -> bool)
    (algo : string) (now ws : Z) (l : list Block) :
  (forall b, in_window now ws b && is_algo algo b = true -> keep b = true) ->
  partition_of algo now ws (List.filter keep l) = partition_of algo now ws l.
Proof.
  intros Hkeep. unfold partition_of. rewrite filter_twice.
  apply List.filter_ext. intros b.
  destruct (in_window now ws b && is_algo algo b) eqn:Hb.
  - rewrite (Hkeep b Hb). reflexivity.
  - apply andb_false_r.
Qed.

(** Dropping blocks that are outside the window or of neither algorithm
    does not change the result. *)
Lemma calculateBlockStats_filter (keep : Block -> bool)
    (clock_ms : Z) (blocks : list Block) (windowMinutes : Z) :
  (forall b,
     in_window (clock_ms / 1000) (windowMinutes * 60) b
     && (is_algo "meowpow" b || is_algo "scrypt" b) = true ->
     keep b = true) ->
  calculateBlockStats clock_ms (List.filter keep blocks) windowMinutes
  = calculateBlockStats clock_ms blocks windowMinutes.
Proof.
  intros Hkeep. rewrite !calculateBlockStats_summary.
  rewrite !partition_of_filter; [reflexivity| |];
    intros b Hb; apply Hkeep;
    apply andb_prop in Hb as [Hw Ha]; rewrite Hw, Ha;
    cbn; rewrite ?orb_true_r; reflexivity.
Qed.

(** A block whose time is 0 is never counted, whatever the window: the
    result is the one for the blocks of non-zero time. *)
Theorem calculateBlockStats_ignores_zero_time
    (clock_ms : Z) (blocks : list Block) (windowMinutes : Z) :
  calculateBlockStats clock_ms
    (List.filter (fun b => negb (time b =? 0)) blocks) windowMinutes
  = calculateBlockStats clock_ms blocks windowMinutes.
Proof.
  apply calculateBlockStats_filter. intros b Hb.
  apply andb_prop in Hb as [Hw _]. unfold in_window in Hw.
  apply andb_prop in Hw as [Ht _]. exact Ht.
Qed.

(** Blocks of unknown version do not influence the result. *)
Theorem calculateBlockStats_ignores_unknown
    (clock_ms : Z) (blocks : list Block) (windowMinutes : Z) :
  calculateBlockStats clock_ms
    (List.filter (fun b => negb (is_algo "unknown" b)) blocks) windowMinutes
  = calculateBlockStats clock_ms blocks windowMinutes.
Proof.
  apply calculateBlockStats_filter. intros b Hb.
  apply andb_prop in Hb as [_ Ha]. unfold is_algo in *.
  destruct (String.eqb_spec (detectAlgo (version b)) "unknown") as [Hu|Hu];
    [|reflexivity].
  rewrite Hu in Ha. discriminate.
Qed.

Lemma length_filter_mono {A} (p q : A -> bool) (l : list A) :
  (forall x, p x = true -> q x = true) ->
  (length (List.filter p l) <= length (List.filter q l))%nat.
Proof.
  intros Hpq. induction l as [|x l IH]; [reflexivity|].
  cbn [List.filter]. specialize (Hpq x).
  destruct (p x); [rewrite Hpq by reflexivity; cbn [length]; lia|].
  destruct (q x); cbn [length]; lia.
Qed.

(** A longer window never finds fewer blocks. *)
Theorem blocks_found_window_monotone
    (clock_ms : Z) (blocks : list Block) (w1 w2 : Z) :
  w1 <= w2 ->
  (blocks_found (meowpow (calculateBlockStats clock_ms blocks w1))
   <= blocks_found (meowpow (calculateBlockStats clock_ms blocks w2)))%nat
  /\ (blocks_found (scrypt (calculateBlockStats clock_ms blocks w1))
      <= blocks_found (scrypt (calculateBlockStats clock_ms blocks w2)))%nat.
Proof.
  intros Hw. rewrite !calculateBlockStats_summary.
  unfold summary, partition_of. cbn [meowpow scrypt blocks_found].
  split; apply length_filter_mono; intros b Hb;
    apply andb_prop in Hb as [Hin Ha]; rewrite Ha, andb_true_r;
    unfold in_window in *; apply andb_prop in Hin as [Ht Hd]; rewrite Ht;
    cbn [andb]; apply Z.leb_le in Hd; apply Z.leb_le; lia.
Qed.

Lemma blocks_found_window_monotone_witness :
  let blocks := [mkBlock 10 1000 0x30090000; mkBlock 11 4000 0x30090001] in
  (blocks_found (meowpow (calculateBlockStats 5000000 blocks 30))
   <= blocks_found (meowpow (calculateBlockStats 5000000 blocks 90)))%nat.
Proof.
  intros blocks.
  apply (blocks_found_window_monotone 5000000 blocks 30 90). lia.
Defined.


Lemma filter_all {A} (p : A -> bool) (l : list A) :
  forallb p l = true -> List.filter p l = l.
Proof.
  induction l as [|x l IH]; [reflexivity|].
  cbn [forallb List.filter]. intros H. apply andb_prop in H as [Hx Hl].
  rewrite Hx, IH by exact Hl. reflexivity.
Qed.

Lemma sum_deltas (a : Z) (l : list Z) :
  sum (deltas (a :: l)) = List.last (a :: l) 0 - a.
Proof.
  revert a. induction l as [|b l IH]; intros a; [unfold sum; cbn; lia|].
  change (deltas (a :: b :: l)) with ((b - a) :: deltas (b :: l)).
  rewrite sum_cons, IH.
  change (List.last (a :: b :: l) 0) with (List.last (b :: l) 0). lia.
Qed.

Lemma length_deltas (a : Z) (l : list Z) :
  length (deltas (a :: l)) = length l.
Proof.
  revert a. induction l as [|b l IH]; intros a; [reflexivity|].
  change (deltas (a :: b :: l)) with ((b - a) :: deltas (b :: l)).
  cbn [length]. rewrite IH. reflexivity.
Qed.

(** When every gap between consecutive blocks of an algorithm is in
    (0, 3600], the average is the time from its first to its last block
    divided by the number of gaps, rounded. *)
Theorem avg_block_time_span
    (clock_ms : Z) (blocks : list Block) (windowMinutes : Z)
    (algo : string) (st : AlgoStats) :
  let r := calculateBlockStats clock_ms blocks windowMinutes in
  algo = "meowpow" /\ st = meowpow r \/ algo = "scrypt" /\ st = scrypt r ->
  let ts :=
    merge_sort Z.le
      (map time (partition_of algo (clock_ms / 1000)
                   (windowMinutes * 60) blocks)) in
  forallb plausible (deltas ts) = true ->
  (2 <= length ts)%nat ->
  avg_block_time st
  = Some (Math_round (inject_Z (List.last ts 0 - hd 0 ts)
                      / inject_Z (Z.of_nat (length ts) - 1))).
Proof.
  intros r Halgo ts Hall Hlen.
  assert (Hst : st = summary (partition_of algo (clock_ms / 1000)
                                (windowMinutes * 60) blocks)).
  { unfold r in Halgo. rewrite calculateBlockStats_summary in Halgo.
    destruct Halgo as [[-> ->]|[-> ->]]; reflexivity. }
  rewrite Hst. unfold summary, retained_spacings. cbn [avg_block_time].
  fold ts. rewrite (filter_all _ _ Hall).
  assert (Hsum : sum (deltas ts) = List.last ts 0 - hd 0 ts)
    by (destruct ts as [|a l]; [cbn [length] in Hlen; lia | apply sum_deltas]).
  assert (Hn : Z.of_nat (length (deltas ts)) = Z.of_nat (length ts) - 1)
    by (destruct ts as [|a l]; [cbn [length] in Hlen; lia|];
        rewrite length_deltas; cbn [length]; lia).
  destruct (deltas ts) as [|d sp] eqn:Hsp; [cbn [length] in Hn; lia|].
  unfold mean. rewrite Hsum, Hn. reflexivity.
Qed.

Lemma avg_block_time_span_witness :
  let blocks := [mkBlock 10 1000 0x30090000; mkBlock 12 1300 0x30090002;
                 mkBlock 11 1100 0x30090001] in
  avg_block_time (meowpow (calculateBlockStats 1300000 blocks 60))
  = Some (Math_round (inject_Z (1300 - 1000) / inject_Z (3 - 1))).
Proof.
  intros blocks.
  apply (avg_block_time_span 1300000 blocks 60 "meowpow"
           (meowpow (calculateBlockStats 1300000 blocks 60)));
    [left; split; reflexivity | reflexivity | vm_compute; lia].
Defined.

End StatsFacts.

(** ** Command parsing *)

Module RpcFacts.

Import Rpc.

(** *** Trimming *)

Lemma trimStart_split (s : list N) :
  exists pre, all_ws pre = true /\ s = pre ++ trimStart s.
Proof.
  induction s as [|c s (pre & Hpre & Hs)]; [exists []; split; reflexivity|].
  cbn [trimStart]. destruct (is_ws c) eqn:Hc.
  - exists (c :: pre). split.
    + unfold all_ws in *. cbn [forallb]. rewrite Hc, Hpre. reflexivity.
    + cbn [app]. rewrite <- Hs. reflexivity.
  - exists []. split; reflexivity.
Qed.

Lemma trimStart_head (s : list N) : starts_with_ws (trimStart s) = false.
Proof.
  induction s as [|c s IH]; [reflexivity|].
  cbn [trimStart]. destruct (is_ws c) eqn:Hc; [exact IH | exact Hc].
Qed.

Lemma all_ws_rev (s : list N) : all_ws (rev s) = all_ws s.
Proof.
  unfold all_ws. induction s as [|c s IH]; [reflexivity|].
  cbn [rev forallb]. rewrite forallb_app, IH. cbn [forallb].
  rewrite andb_true_r. apply andb_comm.
Qed.

Lemma no_ws_rev (s : list N) : no_ws (rev s) = no_ws s.
Proof.
  unfold no_ws. induction s as [|c s IH]; [reflexivity|].
  cbn [rev forallb]. rewrite forallb_app, IH. cbn [forallb].
  rewrite andb_true_r. apply andb_comm.
Qed.

Lemma trimEnd_split (s : list N) :
  exists post, all_ws post = true /\ s = trimEnd s ++ post.
Proof.
  destruct (trimStart_split (rev s)) as (pre & Hpre & Hs).
  exists (rev pre). split; [rewrite all_ws_rev; exact Hpre|].
  unfold trimEnd. rewrite <- rev_app_distr, <- Hs, rev_involutive.
  reflexivity.
Qed.

Lemma trimEnd_last (s : list N) : ends_with_ws (trimEnd s) = false.
Proof.
  unfold ends_with_ws, trimEnd. rewrite rev_involutive. apply trimStart_head.
Qed.

Lemma trimEnd_head (s : list N) :
  starts_with_ws s = false -> starts_with_ws (trimEnd s) = false.
Proof.
  intros Hs. destruct (trimEnd_split s) as (post & _ & Heq).
  destruct (trimEnd s) as [|d t]; [reflexivity|].
  rewrite Heq in Hs. exact Hs.
Qed.

Lemma trim_split (s : list N) :
  exists pre post,
    all_ws pre = true /\ all_ws post = true /\ s = pre ++ trim s ++ post.
Proof.
  destruct (trimStart_split s) as (pre & Hpre & Hs).
  destruct (trimEnd_split (trimStart s)) as (post & Hpost & Ht).
  exists pre, post. repeat split; try assumption.
  unfold trim. rewrite <- Ht. exact Hs.
Qed.

Lemma trim_head (s : list N) : starts_with_ws (trim s) = false.
Proof. apply trimEnd_head, trimStart_head. Qed.

Lemma trim_last (s : list N) : ends_with_ws (trim s) = false.
Proof. apply trimEnd_last. Qed.

Lemma trimStart_no_ws (s : list N) : no_ws s = true -> trimStart s = s.
Proof.
  destruct s as [|c s]; [reflexivity|].
  unfold no_ws. cbn [forallb trimStart]. intros H.
  apply andb_prop in H as [Hc _].
  destruct (is_ws c); [discriminate | reflexivity].
Qed.

Lemma trim_no_ws (s : list N) : no_ws s = true -> trim s = s.
Proof.
  intros H. unfold trim, trimEnd.
  rewrite (trimStart_no_ws s H).
  rewrite trimStart_no_ws by (rewrite no_ws_rev; exact H).
  apply rev_involutive.
Qed.


(** *** Tokens *)

Lemma tokens_word_eq (s pre w rest : list N) (ts : list (list N)) :
  s = pre ++ w ++ rest ->
  all_ws pre = true -> w <> [] -> no_ws w = true ->
  rest = [] \/ starts_with_ws rest = true ->
  tokens_of rest ts ->
  tokens_of s (w :: ts).
Proof. intros ->. apply tokens_word. Qed.

Lemma tokens_of_ws_cons (c : N) (s : list N) (ts : list (list N)) :
  is_ws c = true -> tokens_of s ts -> tokens_of (c :: s) ts.
Proof.
  intros Hc Ht. destruct Ht as [s Hs|pre w rest ts Hpre Hw Hnw Hb Hrest].
  - apply tokens_blank. unfold all_ws in *. cbn [forallb].
    rewrite Hc, Hs. reflexivity.
  - apply (tokens_word_eq _ (c :: pre) w rest); try assumption; [reflexivity|].
    unfold all_ws in *. cbn [forallb]. rewrite Hc, Hpre. reflexivity.
Qed.

Lemma tokens_of_ws_app_l (pre s : list N) (ts : list (list N)) :
  all_ws pre = true -> tokens_of s ts -> tokens_of (pre ++ s) ts.
Proof.
  induction pre as [|c pre IH]; intros Hpre Ht; [exact Ht|].
  unfold all_ws in Hpre. cbn [forallb] in Hpre.
  apply andb_prop in Hpre as [Hc Hpre].
  cbn [app]. apply tokens_of_ws_cons; [exact Hc | apply IH; assumption].
Qed.

Lemma starts_with_ws_all_ws (s : list N) :
  all_ws s = true -> s = [] \/ starts_with_ws s = true.
Proof.
  destruct s as [|c s]; [left; reflexivity|].
  unfold all_ws; cbn [forallb]. intros H.
  apply andb_prop in H as [Hc _]. right. exact Hc.
Qed.

Lemma tokens_of_ws_app_r (s post : list N) (ts : list (list N)) :
  all_ws post = true -> tokens_of s ts -> tokens_of (s ++ post) ts.
Proof.
  intros Hpost Ht.
  induction Ht as [s Hs|pre w rest ts Hpre Hw Hnw Hb Hrest IH].
  - apply tokens_blank. unfold all_ws in *.
    rewrite forallb_app, Hs, Hpost. reflexivity.
  - apply (tokens_word_eq _ pre w (rest ++ post)); try assumption.
    + rewrite <- !app_assoc. reflexivity.
    + destruct Hb as [->|Hb].
      * cbn [app]. apply starts_with_ws_all_ws, Hpost.
      * right. destruct rest; [discriminate | exact Hb].
Qed.

(** Every token is a non-empty run without whitespace. *)
Lemma tokens_of_words (s : list N) (ts : list (list N)) :
  tokens_of s ts -> Forall (fun t => t <> [] /\ no_ws t = true) ts.
Proof.
  induction 1 as [|pre w rest ts _ Hw Hnw _ _ IH]; constructor; auto.
Qed.

Lemma ends_with_ws_tail (c : N) (s : list N) :
  s <> [] -> ends_with_ws (c :: s) = ends_with_ws s.
Proof.
  intros Hs. unfold ends_with_ws. cbn [rev].
  destruct (rev s) as [|d r] eqn:Hr; [|reflexivity].
  apply (f_equal (@rev N)) in Hr. rewrite rev_involutive in Hr.
  contradiction.
Qed.

Lemma ends_with_ws_tail_false (c : N) (s : list N) :
  ends_with_ws (c :: s) = false -> ends_with_ws s = false.
Proof.
  destruct s as [|d s]; [reflexivity|].
  rewrite ends_with_ws_tail by discriminate. auto.
Qed.

Lemma ws_prefix_unique (pre pre' u u' : list N) :
  all_ws pre = true -> all_ws pre' = true ->
  u <> [] -> starts_with_ws u = false ->
  u' <> [] -> starts_with_ws u' = false ->
  pre ++ u = pre' ++ u' -> pre = pre' /\ u = u'.
Proof.
  revert pre'. unfold all_ws.
  induction pre as [|c pre IH]; intros [|c' pre'] Hp Hp' Hu Hh Hu' Hh' Heq;
    cbn [app forallb] in *.
  - auto.
  - destruct u as [|d u]; [congruence|]. injection Heq as -> _.
    apply andb_prop in Hp' as [Hc _]. cbn in Hh. congruence.
  - destruct u' as [|d u']; [congruence|]. injection Heq as <- _.
    apply andb_prop in Hp as [Hc _]. cbn in Hh'. congruence.
  - injection Heq as -> Heq.
    apply andb_prop in Hp as [_ Hp]. apply andb_prop in Hp' as [_ Hp'].
    destruct (IH pre' Hp Hp' Hu Hh Hu' Hh' Heq) as [-> ->]. auto.
Qed.

Lemma word_prefix_unique (w w' rest rest' : list N) :
  no_ws w = true -> no_ws w' = true ->
  rest = [] \/ starts_with_ws rest = true ->
  rest' = [] \/ starts_with_ws rest' = true ->
  w ++ rest = w' ++ rest' -> w = w' /\ rest = rest'.
Proof.
  revert w'. unfold no_ws.
  induction w as [|c w IH]; intros [|c' w'] Hw Hw' Hb Hb' Heq;
    cbn [app forallb] in *.
  - auto.
  - subst rest. apply andb_prop in Hw' as [Hc _].
    destruct Hb as [Hb|Hb]; [discriminate|].
    cbn in Hb. rewrite Hb in Hc. discriminate.
  - subst rest'. apply andb_prop in Hw as [Hc _].
    destruct Hb' as [Hb'|Hb']; [discriminate|].
    cbn in Hb'. rewrite Hb' in Hc. discriminate.
  - injection Heq as -> Heq.
    apply andb_prop in Hw as [_ Hw]. apply andb_prop in Hw' as [_ Hw'].
    destruct (IH w' Hw Hw' Hb Hb' Heq) as [-> ->]. auto.
Qed.

Lemma no_ws_head (w : list N) :
  w <> [] -> no_ws w = true -> forall rest, starts_with_ws (w ++ rest) = false.
Proof.
  destruct w as [|c w]; [congruence|]. intros _ Hw rest.
  unfold no_ws in Hw. cbn [forallb] in Hw. apply andb_prop in Hw as [Hc _].
  cbn. destruct (is_ws c); [discriminate | reflexivity].
Qed.

(** A string has one sequence of tokens. *)
Lemma tokens_of_functional (s : list N) (ts ts' : list (list N)) :
  tokens_of s ts -> tokens_of s ts' -> ts = ts'.
Proof.
  intros Ht. revert ts'.
  induction Ht as [s Hs|pre w rest ts Hpre Hw Hnw Hb Hrest IH]; intros ts' Ht'.
  - inversion Ht' as [|pre w rest ts0 Hpre Hw Hnw Hb Hrest Heq]; [reflexivity|].
    subst. exfalso. unfold all_ws in Hs.
    rewrite !forallb_app in Hs.
    apply andb_prop in Hs as [_ Hs]. apply andb_prop in Hs as [Hs _].
    destruct w as [|c w]; [congruence|].
    unfold no_ws in Hnw. cbn [forallb] in *.
    apply andb_prop in Hs as [Hc _]. apply andb_prop in Hnw as [Hc' _].
    rewrite Hc in Hc'. discriminate.
  - inversion Ht' as [s0 Hs|pre' w' rest' ts0 Hpre' Hw' Hnw' Hb' Hrest' Heq].
    + subst. exfalso. unfold all_ws in Hs.
      rewrite !forallb_app in Hs.
      apply andb_prop in Hs as [_ Hs]. apply andb_prop in Hs as [Hs _].
      destruct w as [|c w]; [congruence|].
      unfold no_ws in Hnw. cbn [forallb] in *.
      apply andb_prop in Hs as [Hc _]. apply andb_prop in Hnw as [Hc' _].
      rewrite Hc in Hc'. discriminate.
    + subst ts'.
      destruct (ws_prefix_unique pre' pre (w' ++ rest') (w ++ rest))
        as [-> Hu]; try assumption.
      * destruct w'; [congruence | discriminate].
      * apply no_ws_head; assumption.
      * destruct w; [congruence | discriminate].
      * apply no_ws_head; assumption.
      * destruct (word_prefix_unique w' w rest' rest) as [-> ->];
          try assumption.
        f_equal. apply IH. exact Hrest'.
Qed.

(** The scan of a string that does not end in whitespace yields the
    tokens, whether it is inside a token or inside a run of whitespace. *)
Lemma split_go_tokens (s : list N) :
  ends_with_ws s = false ->
  (forall cur,
     cur <> [] -> no_ws cur = true ->
     tokens_of (rev cur ++ s) (split_go false cur s))
  /\ (s <> [] -> tokens_of s (split_go true [] s)).
Proof.
  induction s as [|c s IH]; intros Hend.
  - split; [|congruence].
    intros cur Hcur Hnw. cbn [split_go].
    apply (tokens_word_eq _ [] (rev cur) []).
    + reflexivity.
    + reflexivity.
    + intros Hr. apply (f_equal (@rev N)) in Hr.
      rewrite rev_involutive in Hr. contradiction.
    + rewrite no_ws_rev. exact Hnw.
    + left; reflexivity.
    + apply tokens_blank. reflexivity.
  - specialize (IH (ends_with_ws_tail_false _ _ Hend)) as [IHtok IHsep].
    assert (Hs : is_ws c = true -> s <> []).
    { intros Hc ->. unfold ends_with_ws in Hend. cbn in Hend. congruence. }
    split.
    + intros cur Hcur Hnw. cbn [split_go]. destruct (is_ws c) eqn:Hc.
      * apply (tokens_word_eq _ [] (rev cur) (c :: s)).
        -- reflexivity.
        -- reflexivity.
        -- intros Hr. apply (f_equal (@rev N)) in Hr.
           rewrite rev_involutive in Hr. contradiction.
        -- rewrite no_ws_rev. exact Hnw.
        -- right. exact Hc.
        -- apply tokens_of_ws_cons; [exact Hc | apply IHsep, Hs; reflexivity].
      * replace (rev cur ++ c :: s) with (rev (c :: cur) ++ s)
          by (cbn [rev]; rewrite <- app_assoc; reflexivity).
        apply IHtok; [discriminate|].
        unfold no_ws in *. cbn [forallb]. rewrite Hc, Hnw. reflexivity.
    + intros _. cbn [split_go]. destruct (is_ws c) eqn:Hc.
      * apply tokens_of_ws_cons; [exact Hc | apply IHsep, Hs; reflexivity].
      * apply (IHtok [c]); [discriminate|].
        unfold no_ws. cbn [forallb]. rewrite Hc. reflexivity.
Qed.

(** Splitting a trimmed string: the tokens, or the one empty string when
    there is no token. *)
Lemma split_ws_trimmed (t : list N) :
  starts_with_ws t = false -> ends_with_ws t = false ->
  t = [] /\ split_ws t = [[]]
  \/ t <> [] /\ tokens_of t (split_ws t).
Proof.
  intros Hhead Hend. destruct t as [|c t]; [left; split; reflexivity|].
  right. split; [discriminate|].
  cbn [starts_with_ws] in Hhead.
  unfold split_ws. cbn [split_go]. rewrite Hhead.
  apply (proj1 (split_go_tokens t (ends_with_ws_tail_false _ _ Hend)) [c]);
    [discriminate|].
  unfold no_ws. cbn [forallb]. rewrite Hhead. reflexivity.
Qed.

(** A token is its own trimmed form, so [Number] sees it as it is. *)
Lemma coerce_token (p : list N) :
  p <> [] -> no_ws p = true ->
  coerce p = match parse_literal p with
             | Some l => PNum (round_literal l)
             | None => PStr p
             end.
Proof.
  intros Hp Hnw. unfold coerce, Number.
  rewrite (trim_no_ws p Hnw).
  destruct p as [|c p]; [congruence|].
  destruct (parse_literal (c :: p)); reflexivity.
Qed.



(** *** Further properties of [parseCommand] *)

(** The parse of a command is a function of its tokens. *)
Lemma parseCommand_tokens (cmd : list N) (ts : list (list N)) :
  tokens_of cmd ts ->
  parseCommand cmd = {| method := hd [] ts; params := map coerce (tl ts) |}.
Proof.
  intros Hts.
  destruct (trim_split cmd) as (pre & post & Hpre & Hpost & Hcmd).
  destruct (split_ws_trimmed (trim cmd) (trim_head cmd) (trim_last cmd))
    as [[Hnil Hsplit]|[Hne Htok]].
  - assert (Hblank : tokens_of cmd []).
    { apply tokens_blank. rewrite Hcmd, Hnil. cbn [app]. unfold all_ws in *.
      rewrite forallb_app, Hpre, Hpost. reflexivity. }
    rewrite (tokens_of_functional _ _ _ Hts Hblank).
    unfold parseCommand. rewrite Hsplit. reflexivity.
  - assert (Hall : tokens_of cmd (split_ws (trim cmd))).
    { rewrite Hcmd at 1.
      apply tokens_of_ws_app_l; [exact Hpre|].
      apply tokens_of_ws_app_r; assumption. }
    rewrite (tokens_of_functional _ _ _ Hts Hall). reflexivity.
Qed.

Lemma tokens_of_unwords (ws : list (list N)) :
  Forall (fun w => w <> [] /\ no_ws w = true) ws ->
  tokens_of (unwords ws) ws.
Proof.
  induction 1 as [|w ws [Hw Hnw] Hws IH]; [apply tokens_blank; reflexivity|].
  destruct ws as [|w' ws'].
  - cbn [unwords]. apply (tokens_word_eq _ [] w []); try assumption.
    + rewrite app_nil_r. reflexivity.
    + reflexivity.
    + left; reflexivity.
  - change (unwords (w :: w' :: ws')) with (w ++ 32%N :: unwords (w' :: ws')).
    apply (tokens_word_eq _ [] w (32%N :: unwords (w' :: ws')));
      try assumption.
    + reflexivity.
    + reflexivity.
    + right; reflexivity.
    + apply tokens_of_ws_cons; [reflexivity | exact IH].
Qed.

Lemma parseCommand_of_words (m : list N) (args : list (list N)) :
  Forall (fun w => w <> [] /\ no_ws w = true) (m :: args) ->
  parseCommand (unwords (m :: args))
  = {| method := m; params := map coerce args |}.
Proof.
  intros Hws. apply (parseCommand_tokens _ (m :: args)).
  apply tokens_of_unwords, Hws.
Qed.

(** Splitting undoes joining: a method and arguments that are non-empty
    and free of whitespace, joined by single spaces, parse back to that
    method and those arguments, each argument coerced. *)
Theorem parseCommand_unwords (m : list N) (args : list (list N)) :
  Forall (fun w => w <> [] /\ no_ws w = true) (m :: args) ->
  parseCommand (unwords (m :: args))
  = {| method := m; params := map coerce args |}.
Proof. exact (parseCommand_of_words m args). Qed.

Lemma parseCommand_unwords_witness :
  parseCommand (unwords [of_string "getnetworkhashps"; of_string "0";
                         of_string "-1"; of_string "1"])
  = {| method := of_string "getnetworkhashps";
       params := map coerce [of_string "0"; of_string "-1"; of_string "1"] |}.
Proof.
  apply parseCommand_unwords.
  repeat constructor; discriminate.
Defined.

(** Only the tokens matter: two commands with the same tokens, however
    much whitespace surrounds or separates them, parse alike. *)
Theorem parseCommand_whitespace_insensitive
    (cmd cmd' : list N) (ts : list (list N)) :
  tokens_of cmd ts -> tokens_of cmd' ts ->
  parseCommand cmd = parseCommand cmd'.
Proof.
  intros H H'.
  rewrite (parseCommand_tokens _ _ H), (parseCommand_tokens _ _ H').
  reflexivity.
Qed.

Lemma parseCommand_whitespace_insensitive_witness :
  parseCommand (of_string "  getdifficulty   0 ")
  = parseCommand (of_string "getdifficulty 0").
Proof.
  apply (parseCommand_whitespace_insensitive _ _
           [of_string "getdifficulty"; of_string "0"]).
  - apply (tokens_word_eq _ (of_string "  ") (of_string "getdifficulty")
             (of_string "   0 ")); try reflexivity; [discriminate | auto |].
    apply (tokens_word_eq _ (of_string "   ") (of_string "0")
             (of_string " ")); try reflexivity; [discriminate | auto |].
    apply tokens_blank. reflexivity.
  - apply (tokens_of_unwords [of_string "getdifficulty"; of_string "0"]).
    repeat constructor; discriminate.
Defined.

Lemma split_go_nonempty (in_sep : bool) (cur s : list N) :
  split_go in_sep cur s <> [].
Proof.
  revert in_sep cur. induction s as [|c s IH]; intros in_sep cur;
    cbn [split_go]; [discriminate|].
  destruct (is_ws c); [destruct in_sep; [apply IH | discriminate] | apply IH].
Qed.

(** The method is empty exactly for a command that is empty or all
    whitespace, and then there is no parameter either. *)
Theorem parseCommand_blank (cmd : list N) :
  (method (parseCommand cmd) = [] <-> all_ws cmd = true)
  /\ (all_ws cmd = true -> parseCommand cmd = {| method := []; params := [] |}).
Proof.
  assert (Hblank : all_ws cmd = true ->
                   parseCommand cmd = {| method := []; params := [] |}).
  { intros H. apply (parseCommand_tokens cmd []), tokens_blank, H. }
  split; [|exact Hblank].
  split; [|intros H; rewrite (Hblank H); reflexivity].
  intros Hm.
  destruct (trim_split cmd) as (pre & post & Hpre & Hpost & Hcmd).
  destruct (split_ws_trimmed (trim cmd) (trim_head cmd) (trim_last cmd))
    as [[Hnil Hsplit]|[Hne Htok]].
  - rewrite Hcmd, Hnil. cbn [app]. unfold all_ws in *.
    rewrite forallb_app, Hpre, Hpost. reflexivity.
  - exfalso. unfold parseCommand in Hm. cbn [method] in Hm.
    apply tokens_of_words in Htok.
    destruct (split_ws (trim cmd)) as [|m ps] eqn:Hs.
    + exact (split_go_nonempty _ _ _ Hs).
    + cbn [hd] in Hm. apply Forall_inv in Htok as [Hm' _]. contradiction.
Qed.

Lemma parseCommand_blank_witness :
  parseCommand (of_string "   ") = {| method := []; params := [] |}.
Proof.
  apply (proj2 (parseCommand_blank (of_string "   "))). reflexivity.
Defined.

(** The method and every parameter kept as a string are free of
    whitespace, and no parameter is an empty string. *)
Theorem parseCommand_no_whitespace (cmd : list N) :
  no_ws (method (parseCommand cmd)) = true
  /\ Forall (fun p => match p with
                      | PStr s => s <> [] /\ no_ws s = true
                      | PNum _ => True
                      end) (params (parseCommand cmd)).
Proof.
  destruct (trim_split cmd) as (pre & post & Hpre & Hpost & Hcmd).
  destruct (split_ws_trimmed (trim cmd) (trim_head cmd) (trim_last cmd))
    as [[Hnil Hsplit]|[Hne Htok]].
  - unfold parseCommand. rewrite Hsplit. split; [reflexivity | constructor].
  - unfold parseCommand. cbn [method params].
    apply tokens_of_words in Htok.
    destruct (split_ws (trim cmd)) as [|m ps]; [split; [reflexivity|constructor]|].
    cbn [hd tl]. split; [apply Forall_inv in Htok as [_ H]; exact H|].
    apply Forall_inv_tail in Htok.
    induction Htok as [|p ps [Hp Hnw] _ IH]; cbn [map]; constructor; [|exact IH].
    unfold coerce. destruct (Number p); [exact I | split; assumption].
Qed.


(** *** Numeric and non-numeric tokens *)

Lemma is_digit_cases (c : N) :
  is_digit c = true ->
  (c = 48 \/ c = 49 \/ c = 50 \/ c = 51 \/ c = 52
   \/ c = 53 \/ c = 54 \/ c = 55 \/ c = 56 \/ c = 57)%N.
Proof.
  unfold is_digit. intros H. apply andb_prop in H as [Hlo Hhi].
  apply N.leb_le in Hlo. apply N.leb_le in Hhi. lia.
Qed.

Ltac digit_cases H :=
  apply is_digit_cases in H;
  repeat (destruct H as [H|H]); subst.

Lemma is_digit_not_ws (c : N) : is_digit c = true -> is_ws c = false.
Proof. intros H. digit_cases H; reflexivity. Qed.

Lemma digits_no_ws (s : list N) : forallb is_digit s = true -> no_ws s = true.
Proof.
  unfold no_ws. induction s as [|c s IH]; [reflexivity|].
  cbn [forallb]. intros H. apply andb_prop in H as [Hc Hs].
  rewrite (is_digit_not_ws c Hc), IH by exact Hs. reflexivity.
Qed.

Lemma span_digits_all (s : list N) :
  forallb is_digit s = true -> span_digits s = (s, []).
Proof.
  induction s as [|c s IH]; [reflexivity|].
  cbn [forallb span_digits]. intros H. apply andb_prop in H as [Hc Hs].
  rewrite Hc, IH by exact Hs. reflexivity.
Qed.

Lemma digit_of_digit (c : N) :
  is_digit c = true -> digit_of 10 c = Some (c - 48)%N.
Proof. intros H. digit_cases H; reflexivity. Qed.

Lemma digits_value_total (s : list N) (acc : N) :
  forallb is_digit s = true -> exists m, digits_value 10 acc s = Some m.
Proof.
  revert acc. induction s as [|c s IH]; intros acc; [eexists; reflexivity|].
  cbn [forallb digits_value]. intros H. apply andb_prop in H as [Hc Hs].
  rewrite (digit_of_digit c Hc). apply IH, Hs.
Qed.

(** A literal that starts with two digits, or is one digit, is decimal. *)
Lemma parse_literal_digit_start (c0 : N) (rest : list N) :
  is_digit c0 = true ->
  forallb is_digit (firstn 1 rest) = true ->
  parse_literal (c0 :: rest) = parse_unsigned_decimal false (c0 :: rest).
Proof.
  intros H0 H1. destruct rest as [|c1 rest].
  - digit_cases H0; reflexivity.
  - cbn [firstn forallb] in H1. rewrite andb_true_r in H1.
    digit_cases H0; try reflexivity.
    digit_cases H1; reflexivity.
Qed.

Lemma digit_start_not_Infinity (c0 : N) (rest : list N) :
  is_digit c0 = true ->
  bool_decide (c0 :: rest = of_string "Infinity") = false.
Proof.
  intros H0. apply bool_decide_eq_false. intros Heq.
  injection Heq as -> _. discriminate.
Qed.

Lemma all_digits_literal (p : list N) :
  p <> [] -> forallb is_digit p = true ->
  exists m : N,
    digits_value 10 0 p = Some m
    /\ parse_literal p = Some (LDecimal false m 0)
    /\ coerce p = PNum (round_literal (LDecimal false m 0)).
Proof.
  intros Hp Hd.
  destruct (digits_value_total p 0 Hd) as [m Hm]. exists m.
  assert (Hlit : parse_literal p = Some (LDecimal false m 0)).
  { destruct p as [|c0 rest]; [congruence|].
    cbn [forallb] in Hd. apply andb_prop in Hd as [H0 Hrest].
    rewrite parse_literal_digit_start;
      [|exact H0 | destruct rest; [reflexivity|];
                   cbn [firstn forallb] in *;
                   apply andb_prop in Hrest as [-> _]; reflexivity].
    unfold parse_unsigned_decimal.
    rewrite (digit_start_not_Infinity c0 rest H0).
    rewrite span_digits_all
      by (cbn [forallb]; rewrite H0, Hrest; reflexivity).
    cbn [length Nat.add Nat.eqb negb]. rewrite app_nil_r, Hm. reflexivity. }
  split; [exact Hm|]. split; [exact Hlit|].
  rewrite coerce_token; [rewrite Hlit; reflexivity | exact Hp|].
  apply digits_no_ws, Hd.
Qed.

(** A token made of digits only is always turned into a number, the one
    its digits spell out: an all-digit block hash is not sent as a
    string. *)
Theorem coerce_all_digits (p : list N) :
  p <> [] -> forallb is_digit p = true ->
  exists m : N,
    digits_value 10 0 p = Some m
    /\ parse_literal p = Some (LDecimal false m 0)
    /\ coerce p = PNum (round_literal (LDecimal false m 0)).
Proof. exact (all_digits_literal p). Qed.

Lemma coerce_all_digits_witness :
  exists m : N,
    digits_value 10 0 (of_string "0000000000000000000000000000000000012345")
    = Some m
    /\ parse_literal (of_string "0000000000000000000000000000000000012345")
       = Some (LDecimal false m 0)
    /\ coerce (of_string "0000000000000000000000000000000000012345")
       = PNum (round_literal (LDecimal false m 0)).
Proof.
  apply coerce_all_digits; [discriminate | reflexivity].
Defined.

Lemma units_of_uint_digits (u : Decimal.uint) :
  forallb is_digit (units_of_uint u) = true.
Proof. induction u; cbn [units_of_uint forallb]; auto. Qed.

Lemma digits_value_uint_acc (u : Decimal.uint) (acc : positive) :
  digits_value 10 (Npos acc) (units_of_uint u)
  = Some (Npos (Pos.of_uint_acc u acc)).
Proof.
  revert acc. induction u as [|u IH|u IH|u IH|u IH|u IH|u IH|u IH|u IH|u IH|u IH];
    intros acc; [reflexivity|..];
    cbn [units_of_uint digits_value Pos.of_uint_acc];
    match goal with
    | |- context [digit_of 10 ?c] =>
        change (digit_of 10 c) with (Some (c - 48)%N)
    end;
    cbv iota; rewrite <- IH; f_equal; lia.
Qed.

Lemma digits_value_uint (u : Decimal.uint) :
  digits_value 10 0 (units_of_uint u) = Some (Pos.of_uint u).
Proof.
  induction u as [|u IH|u IH|u IH|u IH|u IH|u IH|u IH|u IH|u IH|u IH];
    [reflexivity | exact IH |..];
    cbn [units_of_uint digits_value Pos.of_uint];
    match goal with
    | |- context [digit_of 10 ?c] =>
        change (digit_of 10 c) with (Some (c - 48)%N)
    end;
    cbv iota; apply (digits_value_uint_acc u).
Qed.

Lemma decimal_of_N_value (n : N) :
  digits_value 10 0 (decimal_of_N n) = Some n.
Proof.
  unfold decimal_of_N. rewrite digits_value_uint.
  f_equal. apply DecimalN.Unsigned.of_to.
Qed.

Lemma decimal_of_N_nonempty (n : N) : decimal_of_N n <> [].
Proof.
  unfold decimal_of_N. destruct n as [|p]; [discriminate|].
  cbn [N.to_uint]. pose proof (DecimalPos.Unsigned.to_uint_nonnil p) as Hn.
  destruct (Pos.to_uint p); [congruence | discriminate..].
Qed.

(** A command built from a method and the decimal digits of an integer,
    as [`getblockhash ${height}`] is, parses back to that method and one
    numeric parameter: the number nearest to that integer. *)
Theorem parseCommand_decimal_argument (m : list N) (n : N) :
  m <> [] -> no_ws m = true ->
  parseCommand (unwords [m; decimal_of_N n])
  = {| method := m;
       params := [PNum (round_literal (LDecimal false n 0))] |}.
Proof.
  intros Hm Hnw.
  destruct (all_digits_literal (decimal_of_N n)) as (k & Hk & _ & Hc);
    [apply decimal_of_N_nonempty | apply units_of_uint_digits|].
  rewrite decimal_of_N_value in Hk. injection Hk as <-.
  rewrite parseCommand_of_words.
  - cbn [map]. rewrite Hc. reflexivity.
  - repeat constructor; try assumption.
    + apply decimal_of_N_nonempty.
    + apply digits_no_ws, units_of_uint_digits.
Qed.

Lemma parseCommand_decimal_argument_witness :
  parseCommand (unwords [of_string "getblockhash"; decimal_of_N 1234567])
  = {| method := of_string "getblockhash";
       params := [PNum (round_literal (LDecimal false 1234567 0))] |}.
Proof.
  apply parseCommand_decimal_argument; [discriminate | reflexivity].
Defined.


Lemma span_digits_spec (s : list N) :
  s = (span_digits s).1 ++ (span_digits s).2
  /\ forallb is_digit (span_digits s).1 = true.
Proof.
  induction s as [|c s [IHs IHd]]; [split; reflexivity|].
  cbn [span_digits]. destruct (is_digit c) eqn:Hc; [|split; reflexivity].
  destruct (span_digits s) as [ds r]. cbn [fst snd] in *.
  split; [cbn [app]; rewrite <- IHs; reflexivity|].
  cbn [forallb]. rewrite Hc, IHd. reflexivity.
Qed.

Lemma digit_of_10_is_digit (c d : N) :
  digit_of 10 c = Some d -> is_digit c = true.
Proof.
  unfold digit_of, is_digit.
  destruct ((48 <=? c)%N && (c <=? 57)%N); [reflexivity|].
  destruct ((97 <=? c)%N && (c <=? 102)%N) eqn:Hlow.
  - apply andb_prop in Hlow as [Hlo _]. apply N.leb_le in Hlo.
    destruct (N.ltb_spec (c - 87) 10); [lia | discriminate].
  - destruct ((65 <=? c)%N && (c <=? 70)%N) eqn:Hup; [|discriminate].
    apply andb_prop in Hup as [Hlo _]. apply N.leb_le in Hlo.
    destruct (N.ltb_spec (c - 55) 10); [lia | discriminate].
Qed.

Lemma digits_value_is_digit (s : list N) (acc m : N) :
  digits_value 10 acc s = Some m -> forallb is_digit s = true.
Proof.
  revert acc. induction s as [|c s IH]; intros acc; [reflexivity|].
  cbn [digits_value forallb].
  destruct (digit_of 10 c) as [d|] eqn:Hd; [|discriminate].
  intros H. rewrite (digit_of_10_is_digit c d Hd). exact (IH _ H).
Qed.

Lemma digits_are_decimal_units (s : list N) :
  forallb is_digit s = true -> forallb is_decimal_unit s = true.
Proof.
  induction s as [|c s IH]; [reflexivity|].
  cbn [forallb]. intros H. apply andb_prop in H as [Hc Hs].
  unfold is_decimal_unit at 1. rewrite Hc, IH by exact Hs. reflexivity.
Qed.

(** The optional sign of an exponent. *)
Lemma exponent_sign_cases (rest : list N) :
  let nb := match rest with
            | 43%N :: r => (false, r)
            | 45%N :: r => (true, r)
            | _ => (false, rest)
            end in
  rest = nb.2 \/ rest = 43%N :: nb.2 \/ rest = 45%N :: nb.2.
Proof.
  destruct rest as [|c r]; [left; reflexivity|].
  destruct c as [|p]; [left; reflexivity|].
  do 7 (try (destruct p as [p|p|]; cbn; auto)).
Qed.

Lemma parse_exponent_units (s : list N) (e : Z) :
  parse_exponent s = Some e -> forallb is_decimal_unit s = true.
Proof.
  destruct s as [|c rest]; [reflexivity|].
  unfold parse_exponent.
  destruct ((c =? 101)%N || (c =? 69)%N) eqn:Hc; [|discriminate].
  pose proof (exponent_sign_cases rest) as Hsign. cbn zeta in Hsign.
  destruct (match rest with
            | 43%N :: r => (false, r)
            | 45%N :: r => (true, r)
            | _ => (false, rest)
            end) as [neg body].
  cbn [snd] in Hsign.
  destruct body as [|b body]; [discriminate|].
  remember (b :: body) as bd eqn:Hbd.
  destruct (digits_value 10 0 bd) as [n|] eqn:Hn; [|subst bd; discriminate].
  intros _.
  apply digits_value_is_digit, digits_are_decimal_units in Hn.
  cbn [forallb].
  assert (Hcu : is_decimal_unit c = true).
  { unfold is_decimal_unit. apply orb_prop in Hc as [Hc|Hc]; rewrite Hc;
      rewrite ?orb_true_r; reflexivity. }
  rewrite Hcu. cbn [andb].
  destruct Hsign as [ -> | [ -> | -> ] ]; [exact Hn|..]; cbn [forallb];
    rewrite Hn; reflexivity.
Qed.

(** The fraction part of a decimal literal. *)
Lemma fraction_cases (ip r1 : list N) :
  let t := match r1 with
           | 46%N :: r =>
               let '(fp, r2) := span_digits r in
               (fp, r2, negb (Nat.eqb (length ip + length fp) 0))
           | _ => ([], r1, negb (Nat.eqb (length ip) 0))
           end in
  r1 = t.1.2
  \/ r1 = 46%N :: t.1.1 ++ t.1.2 /\ forallb is_digit t.1.1 = true.
Proof.
  destruct r1 as [|c r]; [left; reflexivity|].
  destruct c as [|p]; [left; reflexivity|].
  do 7 (try (destruct p as [p|p|]; try (left; reflexivity))).
  right. cbn zeta.
  pose proof (span_digits_spec r) as [Hr Hd].
  destruct (span_digits r) as [fp r2]. cbn [fst snd] in *.
  split; [rewrite <- Hr; reflexivity | exact Hd].
Qed.

(** A decimal literal other than [Infinity] is made of decimal units. *)
Lemma parse_unsigned_decimal_units (neg : bool) (s : list N) (l : literal) :
  parse_unsigned_decimal neg s = Some l ->
  s = of_string "Infinity" \/ forallb is_decimal_unit s = true.
Proof.
  unfold parse_unsigned_decimal.
  case_bool_decide as Hinf; [left; exact Hinf|]. right.
  pose proof (span_digits_spec s) as [Hs Hip].
  destruct (span_digits s) as [ip r1]. cbn [fst snd] in *.
  pose proof (fraction_cases ip r1) as Hfrac. cbn zeta in Hfrac.
  destruct (match r1 with
            | 46%N :: r =>
                let '(fp, r2) := span_digits r in
                (fp, r2, negb (Nat.eqb (length ip + length fp) 0))
            | _ => ([], r1, negb (Nat.eqb (length ip) 0))
            end) as [[fp r2] ok].
  cbn [fst snd] in Hfrac.
  destruct ok; [|discriminate].
  destruct (digits_value 10 0 (ip ++ fp)); [|discriminate].
  destruct (parse_exponent r2) as [e|] eqn:He; [|discriminate].
  apply parse_exponent_units in He.
  apply digits_are_decimal_units in Hip.
  rewrite Hs, forallb_app, Hip. cbn [andb].
  destruct Hfrac as [ -> | [ -> Hfp ] ]; [exact He|].
  apply digits_are_decimal_units in Hfp.
  cbn [forallb]. rewrite forallb_app, Hfp, He. reflexivity.
Qed.

(** A token that starts with two digits, as a block hash with its leading
    zeros does, stays a string as soon as it contains one unit that is
    not a digit, [.], [e], [E], [+] or [-]. *)
Theorem coerce_keeps_non_decimal (c0 c1 : N) (rest : list N) :
  is_digit c0 = true -> is_digit c1 = true ->
  no_ws (c0 :: c1 :: rest) = true ->
  forallb is_decimal_unit (c0 :: c1 :: rest) = false ->
  coerce (c0 :: c1 :: rest) = PStr (c0 :: c1 :: rest).
Proof.
  intros H0 H1 Hnw Hunit.
  rewrite coerce_token; [|discriminate | exact Hnw].
  rewrite parse_literal_digit_start;
    [|exact H0 | cbn [firstn forallb]; rewrite H1; reflexivity].
  destruct (parse_unsigned_decimal false (c0 :: c1 :: rest)) as [l|] eqn:Hl;
    [|reflexivity].
  apply parse_unsigned_decimal_units in Hl as [Hinf|Hall].
  - injection Hinf as -> _. discriminate.
  - congruence.
Qed.

Lemma coerce_keeps_non_decimal_witness :
  coerce (of_string "000000a1b2c3d4e5f60718293a4b5c6d7e8f9012")
  = PStr (of_string "000000a1b2c3d4e5f60718293a4b5c6d7e8f9012").
Proof.
  apply (coerce_keeps_non_decimal 48 48
           (of_string "0000a1b2c3d4e5f60718293a4b5c6d7e8f9012"));
    reflexivity.
Defined.

End RpcFacts.

(** ** Log levels *)

Module UtilsFacts.

Import Utils.

Section Comparison.

Variable native_leb : string -> string -> bool.

(** A check at level "error" is decided exactly like one at level "info",
    because the rank 0 of "error" is falsy and replaced by 2: with
    [LOG_LEVEL=warn] an error-level check is refused although a
    warn-level check passes. *)
Theorem shouldLog_error_as_info (LOG_LEVEL : option string) :
  shouldLog native_leb LOG_LEVEL "error"
  = shouldLog native_leb LOG_LEVEL "info"
  /\ shouldLog native_leb (Some "warn") "error" = false
  /\ shouldLog native_leb (Some "warn") "warn" = true.
Proof. repeat split. Qed.

(** Setting [LOG_LEVEL=error] restricts nothing: every check is decided
    as with [LOG_LEVEL=info], which is also the level when the variable is
    unset or empty. *)
Theorem shouldLog_level_error_is_info (level : string) :
  shouldLog native_leb (Some "error") level
  = shouldLog native_leb (Some "info") level
  /\ shouldLog native_leb None level = shouldLog native_leb (Some "info") level
  /\ shouldLog native_leb (Some "") level
     = shouldLog native_leb (Some "info") level.
Proof. repeat split. Qed.

(** A name that is no level and no property of [Object.prototype] counts
    as "info", as the level checked and as the level configured. *)
Theorem shouldLog_unknown_name (name : string) :
  levels name = NoLevel ->
  (forall LOG_LEVEL,
     shouldLog native_leb LOG_LEVEL name
     = shouldLog native_leb LOG_LEVEL "info")
  /\ (name <> "" ->
      forall level,
        shouldLog native_leb (Some name) level
        = shouldLog native_leb (Some "info") level).
Proof.
  intros Hname. split.
  - intros LOG_LEVEL. unfold shouldLog. rewrite Hname. reflexivity.
  - intros Hne level. unfold shouldLog, getLogLevel.
    destruct (String.eqb_spec name "") as [->|_]; [congruence|].
    rewrite Hname. reflexivity.
Qed.

End Comparison.

Lemma shouldLog_unknown_name_witness :
  forall LOG_LEVEL,
    shouldLog String.leb LOG_LEVEL "trace"
    = shouldLog String.leb LOG_LEVEL "info".
Proof.
  apply (shouldLog_unknown_name String.leb "trace"). reflexivity.
Defined.

End UtilsFacts.

(** ** The block scan and the mining report *)

Module MiningFacts.

Import Stats Mining StatsFacts.

Section Node.

Context {W E Hash J : Type}.
Variable getblockcount : call (W := W) (E := E) Z.
Variable getdifficulty : Z -> call (W := W) (E := E) J.
Variable getnetworkhashps : Z -> call (W := W) (E := E) J.
Variable getblockhash : Z -> call (W := W) (E := E) Hash.
Variable getblock : Hash -> call (W := W) (E := E) (option RawBlock).

(** One height adds nothing or one block of that height and non-zero
    time. *)
Lemma fetch_height_cases (h : Z) (blocks : list Block) (w : W) :
  let blocks' :=
    (try_or_keep (fetch_height getblockhash getblock h blocks) blocks w).1 in
  blocks' = blocks
  \/ exists t v, t <> 0 /\ blocks' = blocks ++ [mkBlock h t v].
Proof.
  unfold try_or_keep, fetch_height, bind, ret. cbn zeta.
  destruct (getblockhash h w) as [[hash|e] w1]; [|left; reflexivity].
  destruct (getblock hash w1) as [[[b|]|e] w2]; try (left; reflexivity).
  cbn [fst]. destruct (raw_version b) as [v|]; [|left; reflexivity].
  destruct (Z.eqb_spec (raw_time b) 0) as [Hz|Hnz]; [left; reflexivity|].
  right. exists (raw_time b), v. split; [exact Hnz | reflexivity].
Qed.

Lemma scan_from_invariant (start : Z) (count : nat) :
  forall (h : Z) (blocks : list Block) (w : W),
    Forall (fun b => start <= height b < h /\ time b <> 0) blocks ->
    StronglySorted Z.lt (map height blocks) ->
    Z.of_nat (length blocks) <= h - start ->
    let r := (scan_from getblockhash getblock count h blocks w).1 in
    Forall (fun b => start <= height b < h + Z.of_nat count /\ time b <> 0) r
    /\ StronglySorted Z.lt (map height r)
    /\ Z.of_nat (length r) <= h + Z.of_nat count - start.
Proof.
  induction count as [|n IH]; intros h blocks w Hall Hsorted Hlen.
  - cbn [scan_from fst]. rewrite Z.add_0_r. auto.
  - cbn [scan_from].
    pose proof (fetch_height_cases h blocks w) as Hstep. cbn zeta in Hstep.
    destruct (try_or_keep (fetch_height getblockhash getblock h blocks)
                blocks w) as [blocks' w'].
    cbn [fst] in Hstep.
    replace (h + Z.of_nat (S n)) with (h + 1 + Z.of_nat n) by lia.
    assert (Hstart : start <= h).
    { pose proof (Nat2Z.is_nonneg (length blocks)). lia. }
    apply IH.
    + destruct Hstep as [->|(t & v & Ht & ->)].
      * eapply Forall_impl; [exact Hall|]. cbn. intros b Hb. lia.
      * apply Forall_app. split.
        -- eapply Forall_impl; [exact Hall|]. cbn. intros b Hb. lia.
        -- constructor; [cbn; lia | constructor].
    + destruct Hstep as [->|(t & v & Ht & ->)]; [exact Hsorted|].
      rewrite map_app. apply StronglySorted_app_2;
        [|exact Hsorted | cbn; repeat constructor].
      intros x1 x2 Hx1 Hx2. cbn in Hx2.
      apply list_elem_of_singleton in Hx2 as ->.
      apply list_elem_of_fmap in Hx1 as (b & -> & Hb).
      rewrite Forall_forall in Hall. apply Hall in Hb. lia.
    + destruct Hstep as [->|(t & v & Ht & ->)]; [lia|].
      rewrite length_app. cbn [length]. lia.
Qed.

Lemma scan_blocks_invariant (blockHeight : Z) (w : W) :
  let blocks := (scan_blocks getblockhash getblock blockHeight w).1 in
  (length blocks <= 576)%nat
  /\ Forall (fun b => Z.max 0 (blockHeight - 575) <= height b <= blockHeight
                      /\ time b <> 0) blocks
  /\ StronglySorted Z.lt (map height blocks).
Proof.
  unfold scan_blocks, blocksToFetch. cbn zeta.
  set (start := Z.max 0 (blockHeight - 576 + 1)).
  replace (Z.max 0 (blockHeight - 575)) with start by (unfold start; lia).
  destruct (scan_from_invariant start (Z.to_nat (blockHeight - start + 1))
              start [] w) as (Hall & Hsorted & Hlen);
    [constructor | constructor | cbn; lia |].
  cbn zeta in *.
  set (r := (scan_from getblockhash getblock
               (Z.to_nat (blockHeight - start + 1)) start [] w).1) in *.
  split; [|split; [|exact Hsorted]].
  - unfold start in *. lia.
  - destruct (Z.le_gt_cases start blockHeight) as [Hle|Hgt].
    + eapply Forall_impl; [exact Hall|]. cbn. intros b Hb. lia.
    + replace (Z.to_nat (blockHeight - start + 1)) with 0%nat in * by lia.
      destruct r; [constructor | cbn [length] in Hlen; lia].
Qed.

Lemma scan_blocks_length (blockHeight : Z) (w : W) :
  (length (scan_blocks getblockhash getblock blockHeight w).1 <= 576)%nat.
Proof. apply scan_blocks_invariant. Qed.

(** The scan hands over at most 576 blocks, each of a height among the
    last 576 up to the block count, of non-zero time, and in strictly
    ascending order of height, whatever calls failed on the way. *)
Theorem scan_blocks_bounds (blockHeight : Z) (w : W) :
  let blocks := (scan_blocks getblockhash getblock blockHeight w).1 in
  (length blocks <= 576)%nat
  /\ Forall (fun b => Z.max 0 (blockHeight - 575) <= height b <= blockHeight
                      /\ time b <> 0) blocks
  /\ StronglySorted Z.lt (map height blocks).
Proof. exact (scan_blocks_invariant blockHeight w). Qed.


Lemma blocks_found_sum_le (clock_ms : Z) (blocks : list Block) (wm : Z) :
  (blocks_found (meowpow (calculateBlockStats clock_ms blocks wm))
   + blocks_found (scrypt (calculateBlockStats clock_ms blocks wm))
   <= length blocks)%nat.
Proof.
  rewrite calculateBlockStats_summary.
  unfold summary. cbn [meowpow scrypt blocks_found].
  rewrite <- !partition_of_filters.
  rewrite length_filter_split by exact is_algo_exclusive.
  rewrite filter_twice. apply length_filter_le.
Qed.

(** A report covers a window of 60 minutes, carries the block count the
    node answered, and finds at most 576 blocks over both algorithms. *)
Theorem mining_info_report_bounds (clock_ms : Z) (w w' : W) (r : Report J) :
  mining_info getblockcount getdifficulty getnetworkhashps
    getblockhash getblock clock_ms w = (Answered r, w') ->
  window_minutes r = 60
  /\ (exists w1, getblockcount w = (Answered (block_height r), w1))
  /\ (report_blocks_found (report_meowpow r)
      + report_blocks_found (report_scrypt r) <= 576)%nat.
Proof.
  unfold mining_info, bind.
  destruct (getblockcount w) as [[bh|e] w1]; [|discriminate].
  destruct (getdifficulty 0 w1) as [[d0|e] w2]; [|discriminate].
  destruct (getdifficulty 1 w2) as [[d1|e] w3]; [|discriminate].
  destruct (getnetworkhashps 0 w3) as [[h0|e] w4]; [|discriminate].
  destruct (getnetworkhashps 1 w4) as [[h1|e] w5]; [|discriminate].
  pose proof (scan_blocks_length bh w5) as Hlen.
  destruct (scan_blocks getblockhash getblock bh w5) as [blocks w6].
  cbn [fst] in Hlen. intros [= <- <-].
  cbn [window_minutes block_height report_meowpow report_scrypt
       report_blocks_found].
  split; [reflexivity|]. split; [exists w1; reflexivity|].
  pose proof (blocks_found_sum_le clock_ms blocks windowMinutes). lia.
Qed.

(** Only the five calls made before the scan can make the producer throw:
    when they answer, the producer answers, whatever the calls for the
    single blocks do. *)
Theorem mining_info_survives_block_failures (clock_ms : Z) :
  (forall w, exists a w', getblockcount w = (Answered a, w')) ->
  (forall k w, exists a w', getdifficulty k w = (Answered a, w')) ->
  (forall k w, exists a w', getnetworkhashps k w = (Answered a, w')) ->
  forall w, exists r w',
    mining_info getblockcount getdifficulty getnetworkhashps
      getblockhash getblock clock_ms w = (Answered r, w').
Proof.
  intros Hcount Hdiff Hhash w. unfold mining_info, bind.
  destruct (Hcount w) as (bh & w1 & ->).
  destruct (Hdiff 0 w1) as (d0 & w2 & ->).
  destruct (Hdiff 1 w2) as (d1 & w3 & ->).
  destruct (Hhash 0 w3) as (h0 & w4 & ->).
  destruct (Hhash 1 w4) as (h1 & w5 & ->).
  destruct (scan_blocks getblockhash getblock bh w5) as [blocks w6].
  eexists _, _. reflexivity.
Qed.

End Node.

(** A node that answers every call, with blocks one minute apart. *)
Lemma mining_info_report_bounds_witness :
  let ok {A} (a : A) : call (W := unit) (E := string) A :=
    fun w => (Answered a, w) in
  let getblock (h : Z) : call (W := unit) (E := string) (option RawBlock) :=
    ok (Some (mkRawBlock (1000 + 60 * h) (Some 0x30090000))) in
  exists r,
    mining_info (ok 3) (fun _ => ok 1) (fun _ => ok 2) (fun h => ok h)
      getblock 1300000 tt = (Answered r, tt)
    /\ window_minutes r = 60.
Proof.
  intros ok getblock. eexists. split; [reflexivity|].
  eapply (mining_info_report_bounds (ok Z 3) (fun _ => ok Z 1)
            (fun _ => ok Z 2) (fun h => ok Z h) getblock 1300000 tt tt).
  reflexivity.
Defined.

(** The header calls answer; every call for a block hash throws. *)
Lemma mining_info_survives_block_failures_witness :
  let ok {A} (a : A) : call (W := unit) (E := string) A :=
    fun w => (Answered a, w) in
  let getblockhash (h : Z) : call (W := unit) (E := string) Z :=
    fun w => (Failed "node down", w) in
  exists r w',
    mining_info (ok 3) (fun _ => ok 1) (fun _ => ok 2) getblockhash
      (fun _ => ok None) 1300000 tt = (Answered r, w').
Proof.
  intros ok getblockhash.
  apply (mining_info_survives_block_failures (ok Z 3) (fun _ => ok Z 1)
            (fun _ => ok Z 2) getblockhash (fun _ => ok _ None) 1300000);
    intros; eexists _, _; reflexivity.
Defined.

End MiningFacts.

(** ** The RPC call *)

Module RpcCallFacts.

Import Rpc Mining RpcCall.

Section Transport.

Context {W J : Type}.
Variable transport : Request -> W -> HttpOutcome J * W.
Variable type_error_message : list N.

(** Without a user or a password, unset or empty, [rpc] throws the fixed
    credentials message, which does not name the command, and nothing is
    sent: the outside world is as before. *)
Theorem rpc_missing_credentials
    (env : Credentials) (now : Z) (cmd : list N) (w : W) :
  truthy_text (RPC_USER env) = false \/ truthy_text (RPC_PASS env) = false ->
  rpc transport type_error_message env now cmd w
  = (Failed credentials_message, w).
Proof.
  intros H. unfold rpc.
  destruct H as [-> | ->]; rewrite ?orb_true_r; reflexivity.
Qed.

(** With credentials set, whatever goes wrong (the network, the HTTP
    status, the decoding, an error in the envelope), the message thrown
    starts with "RPC command failed: ", the command as given and " - ". *)
Theorem rpc_failure_names_command
    (env : Credentials) (now : Z) (cmd message : list N) (w w' : W) :
  truthy_text (RPC_USER env) = true ->
  truthy_text (RPC_PASS env) = true ->
  rpc transport type_error_message env now cmd w = (Failed message, w') ->
  exists cause, message = command_failed cmd cause.
Proof.
  intros Hu Hp. unfold rpc. rewrite Hu, Hp. cbn [negb orb].
  destruct (transport _ w) as [[m|ok status statusText json] w1].
  - intros [= <- _]. eexists; reflexivity.
  - destruct ok; cbn [negb].
    + destruct json as [[|text|result]|m]; intros [= <- _] || discriminate;
        eexists; reflexivity.
    + intros [= <- _]. eexists; reflexivity.
Qed.

(** [rpc] answers only what the node sent as [result], in a response of
    successful status whose envelope has no error, to the one request
    made of the parsed command, stamped with the time as id. *)
Theorem rpc_answer_is_result
    (env : Credentials) (now : Z) (cmd : list N) (w w' : W) (result : J) :
  rpc transport type_error_message env now cmd w = (Answered result, w') ->
  truthy_text (RPC_USER env) = true
  /\ truthy_text (RPC_PASS env) = true
  /\ exists user pass status statusText,
       RPC_USER env = Some user /\ RPC_PASS env = Some pass
       /\ transport
            {| auth_user := user; auth_pass := pass; id := now;
               req_method := method (parseCommand cmd);
               req_params := params (parseCommand cmd) |} w
          = (Response true status statusText (Answered (ResultBody result)),
             w').
Proof.
  unfold rpc.
  destruct (RPC_USER env) as [[|u user]|] eqn:Hu; cbn [truthy_text negb orb];
    try discriminate.
  destruct (RPC_PASS env) as [[|p pass]|] eqn:Hp; cbn [truthy_text negb orb];
    try discriminate.
  cbn [default].
  destruct (transport _ w) as [[m|ok status statusText json] w1] eqn:Ht;
    [discriminate|].
  destruct ok; cbn [negb]; [|discriminate].
  destruct json as [[|text|r]|m]; try discriminate.
  intros [= <- <-].
  split; [reflexivity|]. split; [reflexivity|].
  exists (u :: user), (p :: pass), status, statusText.
  repeat split. exact Ht.
Qed.

End Transport.

Lemma rpc_missing_credentials_witness :
  let transport (r : Request) (w : nat) : HttpOutcome Z * nat :=
    (NetworkError (of_string "unreachable"), S w) in
  rpc transport [] (mkCredentials (Some (of_string "mewc")) (Some []))
    0 (of_string "getblockcount") 0%nat
  = (Failed credentials_message, 0%nat).
Proof.
  intros transport. apply rpc_missing_credentials. right. reflexivity.
Defined.

Lemma rpc_failure_names_command_witness :
  let transport (r : Request) (w : nat) : HttpOutcome Z * nat :=
    (Response false 401 (of_string "Unauthorized") (Answered NullBody), S w) in
  exists cause,
    command_failed (of_string "getblockcount")
      (of_string "HTTP 401: Unauthorized")
    = command_failed (of_string "getblockcount") cause.
Proof.
  intros transport.
  apply (rpc_failure_names_command transport []
           (mkCredentials (Some (of_string "mewc")) (Some (of_string "pw")))
           0 (of_string "getblockcount") _ 0%nat 1%nat);
    reflexivity.
Defined.

Lemma rpc_answer_is_result_witness :
  let transport (r : Request) (w : nat) : HttpOutcome Z * nat :=
    (Response true 200 (of_string "OK") (Answered (ResultBody 812)), S w) in
  truthy_text (Some (of_string "mewc")) = true.
Proof.
  intros transport.
  apply (rpc_answer_is_result transport []
           (mkCredentials (Some (of_string "mewc")) (Some (of_string "pw")))
           0 (of_string "getblockcount") 0%nat 1%nat 812).
  reflexivity.
Defined.

End RpcCallFacts.
